(** * edgesearch wiki demo: the [useSearch] hook

    A shallow embedding of [demo/wiki/client/src/search/search.ts]: the
    tokenizer of the raw query, the deduplicating classifier of resolved
    page summaries, and the debounced effect with its asynchronous timer
    callback, modelled as an event-driven state machine. *)

From Stdlib Require Import String Ascii.
From stdpp Require Import gmap strings list.

Local Open Scope N_scope.

(** ** Strings

    A JavaScript string is a sequence of UTF-16 code units.  The regular
    expression of the tokenizer has no [u] flag, so it works on code
    units one by one. *)

Definition jsstring := list N.

Definition str (s : string) : jsstring :=
  map N_of_ascii (list_ascii_of_string s).

(** ** Tokenizer (line 33)

    [query.split(/[^a-zA-Z0-9]+/).filter(t => t).map(t => t.toLowerCase())] *)

(** The character class [a-zA-Z0-9]; the separator class is its complement. *)
Definition is_alnum (c : N) : bool :=
  ((97 <=? c) && (c <=? 122)) || ((65 <=? c) && (c <=? 90)) || ((48 <=? c) && (c <=? 57)).

(** [String.prototype.split] with the separator [/[^a-zA-Z0-9]+/]: the
    scanner keeps the fragment read so far; a separator character closes
    it, and the following separator characters belong to the same match
    (the quantifier is greedy), so they close nothing.  The fragment left
    at the end of the input is always pushed, empty or not. *)
Fixpoint split_from (in_sep : bool) (frag : jsstring) (s : jsstring) : list jsstring :=
  match s with
  | [] => [frag]
  | c :: s' =>
      if is_alnum c then split_from false (frag ++ [c]) s'
      else if in_sep then split_from true frag s'
      else frag :: split_from true [] s'
  end.

Definition split (s : jsstring) : list jsstring := split_from false [] s.

(** A string is truthy when it is not empty: [filter(t => t)]. *)
Definition truthy (t : jsstring) : bool :=
  match t with [] => false | _ :: _ => true end.

(** [toLowerCase] on the code units the tokenizer applies it to: the
    fragments hold only ASCII letters and digits, where lowercasing adds
    32 to an upper-case letter and leaves everything else alone. *)
Definition lower (c : N) : N :=
  if (65 <=? c) && (c <=? 90) then c + 32 else c.

Definition toLowerCase (t : jsstring) : jsstring := map lower t.

Definition tokenize (query : jsstring) : list jsstring :=
  map toLowerCase (List.filter truthy (split query)).

(** The tokenizer as the specification words it: the input is cut into
    runs of separators and maximal non-empty runs of letters and digits;
    the latter, in order, are the fragments that survive. *)
Definition boundary (rest : jsstring) : Prop :=
  match rest with [] => True | c :: _ => is_alnum c = false end.

Inductive Fragments : jsstring → list jsstring → Prop :=
  | Fragments_end seps :
      Forall (λ c, is_alnum c = false) seps →
      Fragments seps []
  | Fragments_word seps w rest ws :
      Forall (λ c, is_alnum c = false) seps →
      w ≠ [] →
      Forall (λ c, is_alnum c = true) w →
      boundary rest →
      Fragments rest ws →
      Fragments (seps ++ w ++ rest) (w :: ws).

(** ** Page summaries and the classifier (lines 10-25, 43-77) *)

(** The fields the callback reads from the JSON body of a summary lookup. *)
Record Metadata := {
  pageid : Z;
  md_title : string;
  displaytitle : string;
  content_urls_desktop_page : string;
  thumbnail_source : option string;   (* [metadata.thumbnail?.source] *)
  md_extract : string;
  extract_html : string;
}.

Record WikipediaPageSummary := {
  id : Z;
  title : string;
  titleHtml : string;
  url : string;
  image : option string;
  extract : string;
  extractHtml : string;
}.

Record FulfilledSearchResults := {
  fullArticles : list WikipediaPageSummary;
  basicArticles : list WikipediaPageSummary;
  count : nat;
  more : bool;
}.

(** Lines 47-55. *)
Definition summary_of (metadata : Metadata) : WikipediaPageSummary :=
  {| id := pageid metadata;
     title := md_title metadata;
     titleHtml := displaytitle metadata;
     url := content_urls_desktop_page metadata;
     image := thumbnail_source metadata;
     extract := md_extract metadata;
     extractHtml := extract_html metadata |}.

(** Line 43: [res.status < 200 || res.status > 299]. *)
Definition failed_status (status : Z) : bool :=
  ((status <? 200) || (299 <? status))%Z.

(** Lines 43-55: a failed status gives [null]. *)
Definition article_of (status : Z) (metadata : Metadata) : option WikipediaPageSummary :=
  if failed_status status then None else Some (summary_of metadata).

(** [if (article.image)]: an absent or empty reference is falsy. *)
Definition has_image (a : WikipediaPageSummary) : bool :=
  match image a with
  | Some s => negb (String.eqb s EmptyString)
  | None => false
  end.

(** The three locals of lines 58-60. *)
Record Buckets := {
  articleIds : gset Z;
  full : list WikipediaPageSummary;
  basic : list WikipediaPageSummary;
}.

Definition no_buckets : Buckets :=
  {| articleIds := ∅; full := []; basic := [] |}.

(** One iteration of the loop of lines 61-71. *)
Definition visit (b : Buckets) (article : option WikipediaPageSummary) : Buckets :=
  match article with
  | None => b
  | Some a =>
      if bool_decide (id a ∈ articleIds b) then b
      else if has_image a
      then {| articleIds := {[id a]} ∪ articleIds b; full := full b ++ [a]; basic := basic b |}
      else {| articleIds := {[id a]} ∪ articleIds b; full := full b; basic := basic b ++ [a] |}
  end.

(** Lines 58-77: the value handed to [setResults]. *)
Definition classify (articles : list (option WikipediaPageSummary)) (titles_more : bool)
  : FulfilledSearchResults :=
  let b := foldl visit no_buckets articles in
  {| fullArticles := full b;
     basicArticles := basic b;
     count := (length (full b) + length (basic b))%nat;
     more := titles_more |}.

(** The first non-null article with a given id, in the order of [articles]. *)
Fixpoint first_with_id (i : Z) (articles : list (option WikipediaPageSummary))
  : option WikipediaPageSummary :=
  match articles with
  | [] => None
  | None :: rest => first_with_id i rest
  | Some a :: rest => if bool_decide (id a = i) then Some a else first_with_id i rest
  end.

(** The non-null articles, in order. *)
Definition successes (articles : list (option WikipediaPageSummary))
  : list WikipediaPageSummary :=
  omap (λ x, x) articles.

(** What the loop has established after the prefix [l] of the articles. *)
Record visited (l : list (option WikipediaPageSummary)) (b : Buckets) : Prop := {
  visited_ids : articleIds b = list_to_set (id <$> successes l);
  visited_kept : ∀ a, a ∈ full b ++ basic b ↔ first_with_id (id a) l = Some a;
  visited_nodup : NoDup (id <$> (full b ++ basic b));
  visited_full : Forall (λ a, has_image a = true) (full b);
  visited_basic : Forall (λ a, has_image a = false) (basic b);
  visited_size : size (articleIds b) = (length (full b) + length (basic b))%nat;
}.

(** ** The hook as an event-driven machine (lines 27-84)

    JavaScript runs the hook on one thread.  The effect body and each
    stretch of the timer callback between two [await]s run to completion;
    what happens in between is decided by the environment: the user
    changes the query, time passes, the browser fires a timer, a network
    call settles.  The machine below has one event for each of these and
    one handler, taken from the source, for each event. *)

(** An entry of the browser's map of active timers: when the callback may
    run, and the [terms] its closure captured ([searchId] is the handle). *)
Record Timer := {
  deadline : N;
  terms : list jsstring;
}.

(** The attempt suspended on [Promise.all] (line 41): [titles.more], and
    one slot per title, [None] while that lookup is outstanding. *)
Record Fanout := {
  fo_more : bool;
  fo_slots : list (option (option WikipediaPageSummary));
}.

(** What the hook does that can be seen from outside. *)
Inductive Action :=
  | Cleared                                             (* line 34 *)
  | Scheduled (searchId : N)                            (* line 36 *)
  | Searched (searchId : N) (required : list jsstring)  (* line 37 *)
  | Fetched (searchId : N) (title : string)             (* line 42 *)
  | Committed (searchId : N) (r : FulfilledSearchResults). (* line 72 *)

Record State := {
  now : N;
  query : jsstring;
  results : option FulfilledSearchResults;
  searchDebounce : option N;              (* [searchDebounce.current] *)
  next_handle : N;                        (* what [setTimeout] returns next:
                                             handles are handed out in
                                             increasing order, none twice *)
  timers : gmap N Timer;                  (* scheduled, not yet fired *)
  awaiting_search : gset N;               (* suspended at line 37 *)
  awaiting_articles : gmap N Fanout;      (* suspended at line 41 *)
  trace : list (N * Action);              (* newest first, with the time *)
}.

Inductive SearchResponse :=
  | SearchFailed
  | SearchOk (titles : list string) (titles_more : bool).

Inductive FetchOutcome :=
  | FetchRejected
  | FetchResponse (status : Z) (metadata : Metadata).

Inductive Event :=
  | Submit (q : jsstring)
  | Elapse (dt : N)
  | Fire (searchId : N)
  | SearchReply (searchId : N) (r : SearchResponse)
  | FetchReply (searchId : N) (idx : nat) (o : FetchOutcome).

(** The quiet interval, the second argument of [setTimeout] (line 78). *)
Definition QUIET : N := 250.

Definition init : State :=
  {| now := 0; query := []; results := None; searchDebounce := None;
     next_handle := 1; timers := ∅; awaiting_search := ∅;
     awaiting_articles := ∅; trace := [] |}.

Definition log (a : Action) (st : State) : State :=
  {| now := now st; query := query st; results := results st;
     searchDebounce := searchDebounce st; next_handle := next_handle st;
     timers := timers st; awaiting_search := awaiting_search st;
     awaiting_articles := awaiting_articles st;
     trace := (now st, a) :: trace st |}.

Definition set_awaiting_search (s : gset N) (st : State) : State :=
  {| now := now st; query := query st; results := results st;
     searchDebounce := searchDebounce st; next_handle := next_handle st;
     timers := timers st; awaiting_search := s;
     awaiting_articles := awaiting_articles st; trace := trace st |}.

Definition set_awaiting_articles (m : gmap N Fanout) (st : State) : State :=
  {| now := now st; query := query st; results := results st;
     searchDebounce := searchDebounce st; next_handle := next_handle st;
     timers := timers st; awaiting_search := awaiting_search st;
     awaiting_articles := m; trace := trace st |}.

Definition set_timers (m : gmap N Timer) (st : State) : State :=
  {| now := now st; query := query st; results := results st;
     searchDebounce := searchDebounce st; next_handle := next_handle st;
     timers := m; awaiting_search := awaiting_search st;
     awaiting_articles := awaiting_articles st; trace := trace st |}.

(** [setResults]. *)
Definition setResults (r : option FulfilledSearchResults) (st : State) : State :=
  {| now := now st; query := query st; results := r;
     searchDebounce := searchDebounce st; next_handle := next_handle st;
     timers := timers st; awaiting_search := awaiting_search st;
     awaiting_articles := awaiting_articles st; trace := trace st |}.

(** [clearTimeout]: an unknown or undefined handle is ignored. *)
Definition clearTimeout (h : option N) (m : gmap N Timer) : gmap N Timer :=
  match h with
  | Some h => delete h m
  | None => m
  end.

(** The effect body, lines 33-36 and 78, run when [query] has become [q]. *)
Definition effect (q : jsstring) (st : State) : State :=
  let terms := tokenize q in
  let st := log Cleared (setResults None st) in
  let cleared := clearTimeout (searchDebounce st) (timers st) in
  let searchId := next_handle st in
  {| now := now st; query := q; results := results st;
     searchDebounce := Some searchId;
     next_handle := searchId + 1;
     timers := <[searchId := {| deadline := now st + QUIET; terms := terms |}]> cleared;
     awaiting_search := awaiting_search st;
     awaiting_articles := awaiting_articles st;
     trace := (now st, Scheduled searchId) :: trace st |}.

(** The timer callback up to its first [await] (line 37).  A timer never
    runs before its delay has passed. *)
Definition fire (searchId : N) (st : State) : option State :=
  match timers st !! searchId with
  | Some tm =>
      if deadline tm <=? now st
      then Some (log (Searched searchId (terms tm))
                   (set_awaiting_search ({[searchId]} ∪ awaiting_search st)
                      (set_timers (delete searchId (timers st)) st)))
      else None
  | None => None
  end.

(** [Promise.all] is fulfilled once every slot is. *)
Fixpoint all_settled {A} (slots : list (option A)) : option (list A) :=
  match slots with
  | [] => Some []
  | None :: _ => None
  | Some x :: slots' =>
      match all_settled slots' with
      | Some xs => Some (x :: xs)
      | None => None
      end
  end.

(** Lines 58-77, once [articles] is known. *)
Definition commit (searchId : N) (articles : list (option WikipediaPageSummary))
    (titles_more : bool) (st : State) : State :=
  let r := classify articles titles_more in
  log (Committed searchId r) (setResults (Some r) st).

(** The attempt either goes on past line 41 or stays suspended there. *)
Definition settle (searchId : N) (fo : Fanout) (st : State) : State :=
  match all_settled (fo_slots fo) with
  | Some articles =>
      commit searchId articles (fo_more fo)
        (set_awaiting_articles (delete searchId (awaiting_articles st)) st)
  | None => set_awaiting_articles (<[searchId := fo]> (awaiting_articles st)) st
  end.

(** The calls of line 42, one per title, issued in order. *)
Definition fetch_all (searchId : N) (titles : list string) (st : State) : State :=
  foldl (λ st title, log (Fetched searchId title) st) st titles.

(** The callback from the return of [client.search] (line 37) to the
    [await] of line 41.  A failed search rejects the callback's promise:
    nothing after line 37 runs. *)
Definition resume_search (searchId : N) (r : SearchResponse) (st : State) : option State :=
  if bool_decide (searchId ∈ awaiting_search st) then
    let st := set_awaiting_search (awaiting_search st ∖ {[searchId]}) st in
    match r with
    | SearchFailed => Some st
    | SearchOk titles titles_more =>
        if bool_decide (Some searchId ≠ searchDebounce st) then Some st
        else Some (settle searchId
                     {| fo_more := titles_more; fo_slots := map (λ _, None) titles |}
                     (fetch_all searchId titles st))
    end
  else None.

(** One lookup settles (lines 42-56).  A rejected lookup rejects
    [Promise.all] and with it the callback; lookups of an attempt that is
    no longer suspended at line 41 settle into nothing. *)
Definition resume_fetch (searchId : N) (idx : nat) (o : FetchOutcome) (st : State)
  : option State :=
  match awaiting_articles st !! searchId with
  | None => Some st
  | Some fo =>
      match fo_slots fo !! idx with
      | Some None =>
          match o with
          | FetchRejected =>
              Some (set_awaiting_articles (delete searchId (awaiting_articles st)) st)
          | FetchResponse status metadata =>
              Some (settle searchId
                      {| fo_more := fo_more fo;
                         fo_slots := <[idx := Some (article_of status metadata)]> (fo_slots fo) |}
                      st)
          end
      | _ => None
      end
  end.

Definition elapse (dt : N) (st : State) : State :=
  {| now := now st + dt; query := query st; results := results st;
     searchDebounce := searchDebounce st; next_handle := next_handle st;
     timers := timers st; awaiting_search := awaiting_search st;
     awaiting_articles := awaiting_articles st; trace := trace st |}.

(** [None]: the event cannot happen in this state. *)
Definition step (st : State) (e : Event) : option State :=
  match e with
  | Submit q => Some (effect q st)
  | Elapse dt => Some (elapse dt st)
  | Fire searchId => fire searchId st
  | SearchReply searchId r => resume_search searchId r st
  | FetchReply searchId idx o => resume_fetch searchId idx o st
  end.

Fixpoint run (st : State) (evs : list Event) : option State :=
  match evs with
  | [] => Some st
  | e :: evs' =>
      match step st e with
      | Some st' => run st' evs'
      | None => None
      end
  end.

(** Helpers for the concrete scenarios below. *)
Definition md (i : Z) (t : string) (img : option string) : Metadata :=
  {| pageid := i; md_title := t; displaytitle := t; content_urls_desktop_page := t;
     thumbnail_source := img; md_extract := t; extract_html := t |}.

(** The characters a search term can hold: [a-z0-9]. *)
Definition is_lower_alnum (c : N) : bool :=
  ((97 <=? c) && (c <=? 122)) || ((48 <=? c) && (c <=? 57)).


(** ** Notions used to state the properties of the machine *)

(** The attempt an action belongs to; [Cleared] belongs to the effect. *)
Definition actor (a : Action) : option N :=
  match a with
  | Cleared => None
  | Scheduled h | Searched h _ | Fetched h _ | Committed h _ => Some h
  end.

(** No action of attempt [h] among the entries [new] of a trace. *)
Definition silent (h : N) (new : list (N * Action)) : Prop :=
  Forall (λ ta, actor ta.2 ≠ Some h) new.

(** Attempt [h] was started and is neither scheduled nor suspended. *)
Definition spent (h : N) (st : State) : Prop :=
  h < next_handle st ∧ timers st !! h = None ∧ (h ∉ awaiting_search st) ∧
  awaiting_articles st !! h = None.

(** Only the timer whose handle is in [searchDebounce.current] can be
    scheduled. *)
Definition at_most_current (st : State) : Prop :=
  ∀ h, is_Some (timers st !! h) → searchDebounce st = Some h.

(** The attempt of the latest submission is scheduled or in flight. *)
Definition pending (st : State) : bool :=
  match searchDebounce st with
  | Some h =>
      (bool_decide (is_Some (timers st !! h)) || bool_decide (h ∈ awaiting_search st))
      || bool_decide (is_Some (awaiting_articles st !! h))
  | None => false
  end.

(** The calls of [client.search] in a stretch of trace: time, attempt and
    required terms. *)
Fixpoint searches (tr : list (N * Action)) : list (N * N * list jsstring) :=
  match tr with
  | [] => []
  | (t, Searched h ts) :: tr' => (t, h, ts) :: searches tr'
  | _ :: tr' => searches tr'
  end.

Definition is_submit (e : Event) : bool :=
  match e with Submit _ => true | _ => false end.

(** The time that passes during a list of events. *)
Fixpoint elapsed (evs : list Event) : N :=
  match evs with
  | [] => 0
  | Elapse dt :: evs' => dt + elapsed evs'
  | _ :: evs' => elapsed evs'
  end.

(** A burst of submissions: each is followed by events that are not
    submissions. *)
Fixpoint burst (b : list (jsstring * list Event)) : list Event :=
  match b with
  | [] => []
  | (q, evs) :: b' => Submit q :: evs ++ burst b'
  end.

(** In a quiet burst less than the quiet interval passes after each
    submission before the next one. *)
Definition quiet (b : list (jsstring * list Event)) : Prop :=
  Forall (λ qe, Forall (λ e, is_submit e = false) qe.2 ∧ elapsed qe.2 < QUIET) b.

(** What the calls of [setResults] recorded in a trace leave in [results]:
    the value of the latest one. *)
Fixpoint shown (tr : list (N * Action)) : option FulfilledSearchResults :=
  match tr with
  | [] => None
  | (_, Cleared) :: _ => None
  | (_, Committed _ r) :: _ => Some r
  | _ :: tr' => shown tr'
  end.

Definition is_commit (a : Action) : bool :=
  match a with Committed _ _ => true | _ => false end.

(** Every result shown is a value the classifier produced. *)
Definition classified (st : State) : Prop :=
  ∀ r, results st = Some r → ∃ articles, r = classify articles (more r).

(** The answers to the lookups of attempt [h]: lookup [i] gets the status
    [status i] and the body [body i], and the answers arrive in the order
    [order]. *)
Definition fetch_replies (h : N) (status : nat → Z) (body : nat → Metadata)
    (order : list nat) : list Event :=
  map (λ i, FetchReply h i (FetchResponse (status i) (body i))) order.

(** The array [articles] of line 41 for [n] titles. *)
Definition resolved (status : nat → Z) (body : nat → Metadata) (n : nat)
  : list (option WikipediaPageSummary) :=
  map (λ i, article_of (status i) (body i)) (seq 0 n).

(** Handles are fresh, and an attempt is at one place at a time: scheduled,
    suspended on the search, or suspended on the lookups. *)
Record well_staged (st : State) : Prop := {
  staged_timer : ∀ h, is_Some (timers st !! h) →
    h < next_handle st ∧ awaiting_articles st !! h = None;
  staged_search : ∀ h, h ∈ awaiting_search st →
    h < next_handle st ∧ timers st !! h = None ∧ awaiting_articles st !! h = None;
  staged_articles : ∀ h, is_Some (awaiting_articles st !! h) → h < next_handle st;
}.

(** ** Concrete scenarios *)

(** The hook is mounted, the user types "cat", the quiet interval passes
    and the timer fires: attempt 2 is suspended on its search. *)
Definition cat_typed : list Event :=
  [Submit []; Elapse 100; Submit (str "cat"); Elapse 250; Fire 2].

Definition searching_cat : State :=
  from_option (λ st, st) init (run init cat_typed).

(** Three titles come back; the second lookup fails, the first and the
    third succeed. *)
Definition cat_titles : list string := ["Cat"; "Felidae"; "Kitten"]%string.

Definition cat_status (i : nat) : Z :=
  match i with 1%nat => 404%Z | _ => 200%Z end.

Definition cat_body (i : nat) : Metadata :=
  match i with
  | 0%nat => md 6678 "Cat" (Some "Cat.jpg"%string)
  | 1%nat => md 0 "Not found." None
  | _ => md 1494648 "Kitten" None
  end.

(** Two titles resolve to the same page: a redirect and its target. *)
Definition redirect_search : list Event :=
  cat_typed ++
  [SearchReply 2 (SearchOk ["Cat"; "Felis_catus"; "Kitten"]%string true);
   FetchReply 2 2 (FetchResponse 200 (md 1494648 "Kitten" None));
   FetchReply 2 1 (FetchResponse 200 (md 6678 "Cat" None));
   FetchReply 2 0 (FetchResponse 200 (md 6678 "Cat" (Some "Cat.jpg"%string)))].

(** "cat" is typed and searched; before the search returns the user types
    on, so attempt 2 is superseded by attempt 3. *)
Definition cat_superseded : list Event :=
  cat_typed ++ [Elapse 40; Submit (str "cats")].

Definition superseded_cat : State :=
  from_option (λ st, st) init (run init cat_superseded).

(** Submissions at t = 0 (the hook is mounted with the empty query) and
    t = 100 (the first keystroke), then the quiet interval passes and the
    timer of the second submission fires. *)
Definition mounted : list (jsstring * list Event) :=
  [([], [Elapse 100])].

Definition debounced : State :=
  from_option (λ st, st) init
    (run init (burst mounted ++ Submit (str "c") :: [Elapse 250; Fire 2])).

(** "cat" is typed and searched, the search returns one title while attempt
    2 is still current, and the lookup is issued; the user then types on
    (attempt 3 is scheduled), and only after that the lookup of attempt 2
    answers. *)
Definition stale_commit : list Event :=
  cat_typed ++
  [SearchReply 2 (SearchOk ["Cat"%string] false); Elapse 40;
   Submit (str "cats"); Elapse 30;
   FetchReply 2 0 (FetchResponse 200 (md 6678 "Cat" (Some "Cat.jpg"%string)))].

Definition stale_state : State :=
  from_option (λ st, st) init (run init stale_commit).

(** ** Further notions *)

(** The results attempt [h] handed to [setResults], newest first. *)
Fixpoint commits_by (h : N) (tr : list (N * Action)) : list FulfilledSearchResults :=
  match tr with
  | [] => []
  | (_, Committed h' r) :: tr' =>
      if bool_decide (h' = h) then r :: commits_by h tr' else commits_by h tr'
  | _ :: tr' => commits_by h tr'
  end.

(** A scheduled timer holds the terms of the query now shown, and is due
    one quiet interval after the effect that scheduled it. *)
Definition timer_of_query (st : State) : Prop :=
  ∀ h tm, timers st !! h = Some tm →
    terms tm = tokenize (query st) ∧
    ∃ t0, deadline tm = t0 + QUIET ∧ (t0, Scheduled h) ∈ trace st.

(** The search of attempt 2 has returned its three titles and the lookups
    are outstanding. *)
Definition cat_found : list Event :=
  cat_typed ++ [SearchReply 2 (SearchOk cat_titles true)].

Definition fetching_cat : State :=
  from_option (λ st, st) init (run init cat_found).

(** Every lookup answers with a server error. *)
Definition all_down (i : nat) : Z := 503%Z.

(** The hook has just been mounted; 100 later nothing has fired yet. *)
Definition just_mounted : State :=
  from_option (λ st, st) init (run init [Submit []; Elapse 100]).

(** The hook is mounted and "cat" is typed 100 later: the timer of the
    second effect is scheduled, that of the first is cancelled. *)
Definition cat_scheduled : list Event :=
  [Submit []; Elapse 100; Submit (str "cat")].

Definition scheduled_cat : State :=
  from_option (λ st, st) init (run init cat_scheduled).

(** ... and the quiet interval has passed. *)
Definition due_cat : State :=
  from_option (λ st, st) init (run init (cat_scheduled ++ [Elapse 250])).

(** The calls of [client.search] attempt [h] made. *)
Definition searches_by (h : N) (tr : list (N * Action)) : list (N * N * list jsstring) :=
  List.filter (λ x, bool_decide (x.1.2 = h)) (searches tr).

(** The timer of attempt [h] is no longer scheduled and never will be. *)
Definition fired (h : N) (st : State) : Prop :=
  h < next_handle st ∧ timers st !! h = None.

(** ** Reading a history of events

    What the network answered to an attempt, read off the list of events
    that led to a state. *)

(** The reply to the search of attempt [h], with the events that came
    after it. *)
Fixpoint search_reply (h : N) (evs : list Event) : option (SearchResponse * list Event) :=
  match evs with
  | [] => None
  | SearchReply h' r :: evs' =>
      if bool_decide (h' = h) then Some (r, evs') else search_reply h evs'
  | _ :: evs' => search_reply h evs'
  end.

(** The answer to lookup [i] of attempt [h]: the first one among [evs]. *)
Fixpoint lookup_reply (h : N) (i : nat) (evs : list Event) : option FetchOutcome :=
  match evs with
  | [] => None
  | FetchReply h' i' o :: evs' =>
      if bool_decide (h' = h ∧ i' = i) then Some o else lookup_reply h i evs'
  | _ :: evs' => lookup_reply h i evs'
  end.

(** What a slot of the fan-out holds, given the answer to its lookup. *)
Definition slot_of (o : option FetchOutcome) : option (option WikipediaPageSummary) :=
  match o with
  | Some (FetchResponse status metadata) => Some (article_of status metadata)
  | _ => None
  end.

(** Among [rest], the first [n] lookups of attempt [h] were answered, the
    [i]-th with status [status i] and body [body i]. *)
Definition answered (h : N) (n : nat) (rest : list Event)
    (status : nat → Z) (body : nat → Metadata) : Prop :=
  ∀ i, (i < n)%nat → lookup_reply h i rest = Some (FetchResponse (status i) (body i)).

(** The fan-out [fo] of attempt [h] is the one its search reply and the
    lookup answers so far give: one slot per title, each holding what its
    lookup answered; none was rejected. *)
Definition fanout_history (evs : list Event) (h : N) (fo : Fanout) : Prop :=
  ∃ titles rest,
    search_reply h evs = Some (SearchOk titles (fo_more fo), rest) ∧
    length (fo_slots fo) = length titles ∧
    ∀ i, (i < length titles)%nat →
      fo_slots fo !! i = Some (slot_of (lookup_reply h i rest)) ∧
      lookup_reply h i rest ≠ Some FetchRejected.

(** The result [r] is the classification of the answers to the lookups of
    attempt [h], taken in the order of the titles of its search reply. *)
Definition commit_history (evs : list Event) (h : N) (r : FulfilledSearchResults) : Prop :=
  ∃ titles m rest status body,
    search_reply h evs = Some (SearchOk titles m, rest) ∧
    answered h (length titles) rest status body ∧
    r = classify (resolved status body (length titles)) m.

(** The state agrees with the history that led to it. *)
Record history_ok (evs : list Event) (st : State) : Prop := {
  history_fanout : ∀ h fo,
    awaiting_articles st !! h = Some fo → fanout_history evs h fo;
  history_commit : ∀ t h r,
    (t, Committed h r) ∈ trace st → commit_history evs h r;
  history_unsearched : ∀ h,
    h ∈ awaiting_search st ∨ is_Some (timers st !! h) ∨ next_handle st ≤ h →
    search_reply h evs = None;
}.

(** The status and the body of an answer; a missing or rejected answer has
    neither. *)
Definition status_of (o : option FetchOutcome) : Z :=
  match o with Some (FetchResponse status _) => status | _ => 0%Z end.

Definition body_of (o : option FetchOutcome) : Metadata :=
  match o with
  | Some (FetchResponse _ metadata) => metadata
  | _ => md 0 EmptyString None
  end.

(** "cat" is typed and searched, the user types on, and the search for
    "cats" returns, is looked up and committed while the search for "cat"
    is still out. *)
Definition cats_first : list Event :=
  cat_superseded ++
  [Elapse 250; Fire 3; SearchReply 3 (SearchOk ["Cats"%string] false);
   FetchReply 3 0 (FetchResponse 200 (md 3450 "Cats" None))].

Definition cats_shown : State :=
  from_option (λ st, st) init (run init cats_first).
(** * Tokenizer *)

Section Tokenizer.

Example split_edges :
  split (str "a,,b") = [str "a"; str "b"] ∧
  split (str ",a") = [[]; str "a"] ∧
  split (str "a, ") = [str "a"; []] ∧
  split [] = [[]].
Proof. repeat split. Qed.

Lemma split_from_word w : ∀ b frag rest,
  w ≠ [] →
  Forall (λ c, is_alnum c = true) w →
  split_from b frag (w ++ rest) = split_from false (frag ++ w) rest.
Proof.
  induction w as [|c w IH]; intros b frag rest Hne Hw; [done|].
  inversion Hw as [|? ? Hc Hw']; subst. simpl. rewrite Hc.
  destruct w as [|c' w'].
  - reflexivity.
  - rewrite (IH false (frag ++ [c]) rest); [|done|done].
    by rewrite <- app_assoc.
Qed.

Lemma words_skip_seps seps : ∀ rest,
  Forall (λ c, is_alnum c = false) seps →
  List.filter truthy (split_from true [] (seps ++ rest))
  = List.filter truthy (split_from true [] rest).
Proof.
  induction seps as [|c seps IH]; intros rest Hs; [done|].
  inversion Hs as [|? ? Hc Hs']; subst. simpl. rewrite Hc. by apply IH.
Qed.

Lemma words_in_sep s :
  List.filter truthy (split_from false [] s) = List.filter truthy (split_from true [] s).
Proof. destruct s as [|c s]; [done|]. simpl. by destruct (is_alnum c). Qed.

Lemma words_after_word w rest :
  w ≠ [] → boundary rest →
  List.filter truthy (split_from false w rest)
  = w :: List.filter truthy (split_from true [] rest).
Proof.
  intros Hne Hb. destruct rest as [|c r]; simpl in *.
  - by destruct w.
  - rewrite Hb. simpl. by destruct w.
Qed.

Lemma Fragments_split s ws :
  Fragments s ws → List.filter truthy (split s) = ws.
Proof.
  unfold split. induction 1 as [seps Hs|seps w rest ws Hs Hne Hw Hb _ IH].
  - rewrite words_in_sep, <- (app_nil_r seps), words_skip_seps; done.
  - rewrite words_in_sep, words_skip_seps by done.
    rewrite split_from_word by done. simpl.
    rewrite words_after_word by done.
    by rewrite <- words_in_sep, IH.
Qed.

Lemma Fragments_total s : ∃ ws, Fragments s ws.
Proof.
  induction s as [|c s [ws IH]].
  - exists []. by constructor.
  - destruct (is_alnum c) eqn:Hc.
    + inversion IH as [seps Hs|seps w rest ws' Hs Hne Hw Hb Hrest]; subst.
      * exists [[c]]. apply (Fragments_word [] [c] s []); try done.
        -- by repeat constructor.
        -- destruct s as [|c' s']; [done|]. by inversion Hs.
      * destruct seps as [|c' seps'].
        -- exists ((c :: w) :: ws'). apply (Fragments_word [] (c :: w) rest ws'); try done.
           by constructor.
        -- exists ([c] :: w :: ws').
           apply (Fragments_word [] [c] ((c' :: seps') ++ w ++ rest) (w :: ws')); try done.
           ++ by repeat constructor.
           ++ by inversion Hs.
    + inversion IH as [seps Hs|seps w rest ws' Hs Hne Hw Hb Hrest]; subst.
      * exists []. constructor. by constructor.
      * exists (w :: ws'). apply (Fragments_word (c :: seps) w rest ws'); try done.
        by constructor.
Qed.

Lemma Fragments_words s ws :
  Fragments s ws → Forall (λ w, w ≠ [] ∧ Forall (λ c, is_alnum c = true) w) ws.
Proof. induction 1; by constructor. Qed.

Lemma lower_alnum c : is_alnum c = true → is_lower_alnum (lower c) = true.
Proof.
  unfold is_alnum, is_lower_alnum, lower. intros H.
  destruct (65 <=? c) eqn:H1, (c <=? 90) eqn:H2; simpl in *;
    repeat match goal with
    | H : (_ <=? _) = true |- _ => apply N.leb_le in H
    | H : (_ <=? _) = false |- _ => apply N.leb_gt in H
    end.
  - apply orb_true_iff. left. apply andb_true_iff. split; apply N.leb_le; lia.
  - rewrite orb_false_r in H. done.
  - rewrite orb_false_r in H. done.
  - rewrite orb_false_r in H. done.
Qed.

End Tokenizer.

(** * Classifier *)

Section Classifier.

Implicit Types (a : WikipediaPageSummary) (b : Buckets).
Implicit Types (l articles : list (option WikipediaPageSummary)).

Lemma first_with_id_app i l k :
  first_with_id i (l ++ k)
  = match first_with_id i l with Some a => Some a | None => first_with_id i k end.
Proof.
  induction l as [|[a|] l IH]; simpl; [done| |done].
  by case_bool_decide.
Qed.

Lemma first_with_id_Some i l a :
  first_with_id i l = Some a → id a = i ∧ Some a ∈ l.
Proof.
  induction l as [|[a'|] l IH]; simpl; [done| |].
  - case_bool_decide.
    + intros [= ->]. split; [done|]. by left.
    + intros H'. destruct (IH H'). split; [done|]. by right.
  - intros H'. destruct (IH H'). split; [done|]. by right.
Qed.

Lemma first_with_id_None i l :
  first_with_id i l = None ↔ i ∉ id <$> successes l.
Proof.
  unfold successes. induction l as [|[a|] l IH]; csimpl.
  - split; [|done]. intros _ H. inversion H.
  - case_bool_decide as Hi.
    + split; [done|]. intros H. exfalso. apply H. subst. by left.
    + rewrite IH, not_elem_of_cons. naive_solver.
  - done.
Qed.

Lemma visited_nil : visited [] no_buckets.
Proof.
  split; simpl; try done.
  - intros a. split; [|done]. intros H. inversion H.
  - constructor.
Qed.

Lemma visited_seen l b i :
  visited l b → i ∈ articleIds b ↔ first_with_id i l ≠ None.
Proof.
  intros V. rewrite (visited_ids _ _ V), first_with_id_None.
  rewrite elem_of_list_to_set. split; [naive_solver|].
  intros H. by destruct (decide (i ∈ id <$> successes l)).
Qed.

Lemma visited_fresh l b a :
  visited l b → id a ∉ articleIds b → id a ∉ id <$> (full b ++ basic b).
Proof.
  intros V Hnot Hin. apply Hnot.
  apply list_elem_of_fmap in Hin as (a' & Heq & Hin).
  apply (visited_kept _ _ V) in Hin.
  apply (visited_seen _ _ _ V). rewrite Heq. by rewrite Hin.
Qed.

Lemma visited_step l b x : visited l b → visited (l ++ [x]) (visit b x).
Proof.
  intros V. destruct x as [a|]; simpl.
  2:{ destruct V. split; try done.
      - unfold successes in *. by rewrite omap_app, app_nil_r.
      - intros a. rewrite first_with_id_app. simpl.
        rewrite visited_kept0. by destruct (first_with_id (id a) l). }
  case_bool_decide as Hseen.
  - pose proof (proj1 (visited_seen _ _ _ V) Hseen) as Hsome.
    destruct V. split; try done.
    + unfold successes in *. rewrite omap_app, fmap_app, list_to_set_app_L. simpl.
      rewrite <- visited_ids0. set_solver.
    + intros a'. rewrite first_with_id_app. simpl. rewrite visited_kept0.
      destruct (first_with_id (id a') l) eqn:E; [done|].
      case_bool_decide as Hid; [|done].
      rewrite Hid in Hsome. done.
  - pose proof (visited_fresh _ _ _ V Hseen) as Hfresh.
    assert (first_with_id (id a) l = None) as Ha.
    { destruct (first_with_id (id a) l) eqn:E; [|done].
      exfalso. apply Hseen. apply (visited_seen _ _ _ V). by rewrite E. }
    assert (∀ a', a' ∈ a :: full b ++ basic b
                 ↔ first_with_id (id a') (l ++ [Some a]) = Some a') as Hkept.
    { intros a'. rewrite first_with_id_app. simpl. rewrite elem_of_cons.
      rewrite (visited_kept _ _ V).
      destruct (first_with_id (id a') l) eqn:E.
      - split; [|naive_solver]. intros [->|H']; [|done]. rewrite Ha in E. done.
      - case_bool_decide as Hid; split; try naive_solver. }
    assert (articleIds (visit b (Some a)) = list_to_set (id <$> successes (l ++ [Some a]))) as Hids.
    { simpl. rewrite bool_decide_eq_false_2 by done.
      unfold successes. rewrite omap_app, fmap_app, list_to_set_app_L. simpl.
      fold (successes l). rewrite <- (visited_ids _ _ V).
      destruct (has_image a); simpl; set_solver. }
    simpl in Hids. rewrite bool_decide_eq_false_2 in Hids by done.
    destruct (has_image a) eqn:Himg; split; simpl; try done.
    + intros a'. rewrite <- Hkept. set_solver.
    + rewrite <- app_assoc. simpl.
      eapply NoDup_Permutation_proper; [|apply NoDup_cons; split;
        [exact Hfresh|exact (visited_nodup _ _ V)]].
      rewrite !fmap_app. simpl. by rewrite <- Permutation_middle.
    + apply Forall_app. split; [by destruct V|]. by repeat constructor.
    + by destruct V.
    + rewrite size_union by set_solver. rewrite size_singleton, (visited_size _ _ V).
      rewrite length_app. simpl. lia.
    + intros a'. rewrite <- Hkept. set_solver.
    + rewrite app_assoc.
      eapply NoDup_Permutation_proper; [|apply NoDup_cons; split;
        [exact Hfresh|exact (visited_nodup _ _ V)]].
      rewrite !fmap_app. simpl. rewrite <- fmap_app. by rewrite <- Permutation_cons_append.
    + by destruct V.
    + apply Forall_app. split; [by destruct V|]. by repeat constructor.
    + rewrite size_union by set_solver. rewrite size_singleton, (visited_size _ _ V).
      rewrite length_app. simpl. lia.
Qed.

Lemma visited_all articles : visited articles (foldl visit no_buckets articles).
Proof.
  induction articles as [|x l IH] using rev_ind.
  - apply visited_nil.
  - rewrite foldl_snoc. by apply visited_step.
Qed.

(** The classifier's result, read off the loop invariant. *)
Lemma classify_kept articles m a :
  a ∈ fullArticles (classify articles m) ++ basicArticles (classify articles m)
  ↔ first_with_id (id a) articles = Some a.
Proof. apply (visited_kept _ _ (visited_all articles)). Qed.

Lemma classify_nodup articles m :
  NoDup (id <$> (fullArticles (classify articles m) ++ basicArticles (classify articles m))).
Proof. apply (visited_nodup _ _ (visited_all articles)). Qed.

Lemma classify_count_ids articles m :
  count (classify articles m) = size (list_to_set (id <$> successes articles) : gset Z).
Proof.
  simpl. rewrite <- (visited_size _ _ (visited_all articles)).
  by rewrite (visited_ids _ _ (visited_all articles)).
Qed.

Lemma classify_buckets articles m :
  Forall (λ a, has_image a = true) (fullArticles (classify articles m)) ∧
  Forall (λ a, has_image a = false) (basicArticles (classify articles m)).
Proof.
  split.
  - apply (visited_full _ _ (visited_all articles)).
  - apply (visited_basic _ _ (visited_all articles)).
Qed.

Lemma has_image_true a : has_image a = true ↔ ∃ s, image a = Some s ∧ s ≠ EmptyString.
Proof.
  unfold has_image. destruct (image a) as [s|].
  - rewrite negb_true_iff, String.eqb_neq. naive_solver.
  - naive_solver.
Qed.

Lemma has_image_false a :
  has_image a = false ↔ image a = None ∨ image a = Some EmptyString.
Proof.
  unfold has_image. destruct (image a) as [s|].
  - rewrite negb_false_iff, String.eqb_eq. naive_solver.
  - naive_solver.
Qed.

Lemma first_with_id_distinct l a :
  NoDup (id <$> successes l) → Some a ∈ l → first_with_id (id a) l = Some a.
Proof.
  unfold successes. induction l as [|[a'|] l IH]; csimpl; intros Hnd Hin.
  - by apply elem_of_nil in Hin.
  - apply NoDup_cons in Hnd as [Hfresh Hnd].
    apply elem_of_cons in Hin as [[= ->]|Hin].
    + by rewrite bool_decide_eq_true_2.
    + case_bool_decide as Hid; [|by apply IH].
      exfalso. apply Hfresh. rewrite Hid. apply list_elem_of_fmap.
      exists a. split; [done|]. apply list_elem_of_omap. by exists (Some a).
  - apply elem_of_cons in Hin as [?|Hin]; [done|]. by apply IH.
Qed.

Lemma successes_failed (status : nat → Z) (body : nat → Metadata) (l : list nat) :
  (length (successes (map (λ i, article_of (status i) (body i)) l))
   + length (List.filter (λ i, failed_status (status i)) l) = length l)%nat.
Proof.
  unfold successes. induction l as [|i l IH]; csimpl; [done|].
  unfold article_of at 1. destruct (failed_status (status i)); simpl; lia.
Qed.

End Classifier.

(** * The machine *)

Section Machine.

Implicit Types (st : State) (e : Event) (evs : list Event) (h searchId : N).

Lemma run_app evs1 : ∀ st evs2,
  run st (evs1 ++ evs2) = match run st evs1 with Some st1 => run st1 evs2 | None => None end.
Proof.
  induction evs1 as [|e evs1 IH]; intros st evs2; simpl; [done|].
  destruct (step st e); [apply IH|done].
Qed.

(** [fetch_all] only writes to the trace. *)
Lemma fetch_all_frame h titles st :
  let st' := fetch_all h titles st in
  now st' = now st ∧ query st' = query st ∧ results st' = results st ∧
  searchDebounce st' = searchDebounce st ∧ next_handle st' = next_handle st ∧
  timers st' = timers st ∧ awaiting_search st' = awaiting_search st ∧
  awaiting_articles st' = awaiting_articles st.
Proof.
  unfold fetch_all. induction titles as [|t titles IH] using rev_ind; [done|].
  rewrite foldl_snoc. simpl. apply IH.
Qed.

Lemma fetch_all_trace h titles : ∀ st,
  trace (fetch_all h titles st)
  = rev (map (λ t, (now st, Fetched h t)) titles) ++ trace st.
Proof.
  unfold fetch_all.
  induction titles as [|t titles IH] using rev_ind; intros st; [done|].
  rewrite foldl_snoc, map_app, rev_app_distr. simpl. rewrite IH.
  destruct (fetch_all_frame h titles st) as [Hnow _].
  unfold fetch_all in Hnow. by rewrite Hnow.
Qed.

(** The two outcomes of [settle]. *)
Lemma settle_cases h fo st :
  (∃ articles, all_settled (fo_slots fo) = Some articles ∧
     settle h fo st
     = commit h articles (fo_more fo)
         (set_awaiting_articles (delete h (awaiting_articles st)) st)) ∨
  (all_settled (fo_slots fo) = None ∧
     settle h fo st = set_awaiting_articles (<[h := fo]> (awaiting_articles st)) st).
Proof. unfold settle. destruct (all_settled (fo_slots fo)); eauto. Qed.

End Machine.

Section Invariants.

Implicit Types (st : State) (e : Event) (evs : list Event) (h searchId : N).

Local Ltac step_cases H :=
  match type of H with step _ ?e = Some _ => destruct e end;
  simpl in H; unfold fire, resume_search, resume_fetch in H;
  repeat case_match; simplify_eq.

Lemma silent_app h new1 new2 : silent h new1 → silent h new2 → silent h (new1 ++ new2).
Proof. unfold silent. intros. by apply Forall_app. Qed.

Lemma silent_fetches h h' t titles :
  h ≠ h' → silent h (rev (map (λ title, (t, Fetched h' title)) titles)).
Proof.
  intros Hne. unfold silent. apply Forall_rev, Forall_map, Forall_forall.
  intros x _. simpl. congruence.
Qed.

(** A spent attempt stays spent and does nothing. *)
Lemma spent_step h st e st' :
  spent h st → step st e = Some st' →
  spent h st' ∧ ∃ new, trace st' = new ++ trace st ∧ silent h new.
Proof.
  intros (Hlt & Ht & Hs & Ha) Hstep. step_cases Hstep.
  - (* Submit *)
    split.
    + unfold spent, effect; simpl. repeat split; try done; try lia.
      rewrite lookup_insert_ne by lia.
      destruct (searchDebounce st); simpl; [|done].
      rewrite lookup_delete. by case_decide.
    + exists [(now st, Scheduled (next_handle st)); (now st, Cleared)].
      split; [done|]. repeat constructor; simpl; [|done].
      intros [= ?]. lia.
  - (* Elapse *)
    split; [done|]. exists []. split; [done|]. constructor.
  - (* Fire *)
    assert (h ≠ searchId) by (intros ->; congruence).
    split.
    + unfold spent; simpl. repeat split; try done.
      * by rewrite lookup_delete_ne.
      * set_solver.
    + exists [(now st, Searched searchId (terms t))]. split; [done|].
      repeat constructor. simpl. congruence.
  - (* SearchReply, failed *)
    split; [|exists []; split; [done|constructor]].
    unfold spent; simpl. repeat split; try done. set_solver.
  - (* SearchReply, superseded *)
    split; [|exists []; split; [done|constructor]].
    unfold spent; simpl. repeat split; try done. set_solver.
  - (* SearchReply, current *)
    assert (h ≠ searchId).
    { intros ->. by match goal with H : bool_decide (_ ∈ _) = true |- _ =>
        apply bool_decide_eq_true_1 in H end. }
    match goal with |- context [settle _ ?fo ?s] =>
      destruct (fetch_all_frame searchId titles
                  (set_awaiting_search (awaiting_search st ∖ {[searchId]}) st))
        as (Fn & Fq & Fr & Fd & Fh & Ft & Fs & Fa);
      pose proof (fetch_all_trace searchId titles
                  (set_awaiting_search (awaiting_search st ∖ {[searchId]}) st)) as Ftr;
      destruct (settle_cases searchId fo s) as [(arts & _ & ->)|(_ & ->)]
    end; simpl in *.
    + split.
      * unfold spent; simpl. rewrite Fh, Ft, Fs, Fa. repeat split; try done.
        -- set_solver.
        -- by rewrite lookup_delete_ne.
      * eexists (_ :: _). rewrite Ftr. simpl. split; [done|].
        constructor; [simpl; congruence|]. by apply silent_fetches.
    + split.
      * unfold spent; simpl. rewrite Fh, Ft, Fs, Fa. repeat split; try done.
        -- set_solver.
        -- by rewrite lookup_insert_ne.
      * eexists. rewrite Ftr. split; [done|]. by apply silent_fetches.
  - (* FetchReply, rejected *)
    assert (h ≠ searchId) by (intros ->; congruence).
    split; [|exists []; split; [done|constructor]].
    unfold spent; simpl. repeat split; try done. by rewrite lookup_delete_ne.
  - (* FetchReply, response *)
    assert (h ≠ searchId) by (intros ->; congruence).
    match goal with |- context [settle _ ?fo ?s] =>
      destruct (settle_cases searchId fo s) as [(arts & _ & ->)|(_ & ->)]
    end; simpl.
    + split.
      * unfold spent; simpl. repeat split; try done. by rewrite lookup_delete_ne.
      * eexists [_]. split; [done|]. repeat constructor. simpl. congruence.
    + split.
      * unfold spent; simpl. repeat split; try done. by rewrite lookup_insert_ne.
      * exists []. split; [done|]. constructor.
  - (* FetchReply for an attempt that is gone *)
    split; [done|]. exists []. split; [done|]. constructor.
Qed.

Lemma spent_run h evs : ∀ st st',
  spent h st → run st evs = Some st' →
  spent h st' ∧ ∃ new, trace st' = new ++ trace st ∧ silent h new.
Proof.
  induction evs as [|e evs IH]; intros st st' Hsp Hrun; simpl in Hrun.
  - simplify_eq. split; [done|]. exists []. split; [done|]. constructor.
  - destruct (step st e) as [st1|] eqn:Hstep; [|done].
    destruct (spent_step _ _ _ _ Hsp Hstep) as (Hsp1 & new1 & Htr1 & Hsil1).
    destruct (IH _ _ Hsp1 Hrun) as (Hsp' & new2 & Htr2 & Hsil2).
    split; [done|]. exists (new2 ++ new1).
    rewrite Htr2, Htr1, app_assoc. split; [done|]. by apply silent_app.
Qed.

Lemma classified_init : classified init.
Proof. by intros r. Qed.

Lemma classified_commit h articles m st :
  classified (commit h articles m st).
Proof. intros r [= <-]. by exists articles. Qed.

Lemma classified_settle h fo st : classified st → classified (settle h fo st).
Proof.
  intros Hc. destruct (settle_cases h fo st) as [(arts & _ & ->)|(_ & ->)].
  - apply classified_commit.
  - done.
Qed.

Lemma classified_step st e st' :
  classified st → step st e = Some st' → classified st'.
Proof.
  intros Hc Hstep. step_cases Hstep; try done.
  - apply classified_settle. intros r. simpl.
    match goal with |- context [fetch_all ?h ?ts ?s] =>
      destruct (fetch_all_frame h ts s) as (_ & _ & -> & _) end.
    apply Hc.
  - by apply classified_settle.
Qed.

Lemma classified_run evs : ∀ st st',
  classified st → run st evs = Some st' → classified st'.
Proof.
  induction evs as [|e evs IH]; intros st st' Hc Hrun; simpl in Hrun.
  - by simplify_eq.
  - destruct (step st e) as [st1|] eqn:Hstep; [|done].
    eapply IH; [|done]. by eapply classified_step.
Qed.

(** [results] is what the latest recorded [setResults] left there. *)
Lemma shown_fetches h t titles tr :
  shown (rev (map (λ title, (t, Fetched h title)) titles) ++ tr) = shown tr.
Proof.
  induction titles as [|x titles IH] using rev_ind; [done|].
  by rewrite map_app, rev_app_distr.
Qed.

Lemma shown_step st e st' :
  results st = shown (trace st) → step st e = Some st' →
  results st' = shown (trace st').
Proof.
  intros Hs Hstep. step_cases Hstep; try done.
  - match goal with |- context [settle _ ?fo ?s] =>
      destruct (settle_cases searchId fo s) as [(arts & _ & ->)|(_ & ->)];
      match s with fetch_all ?h ?ts ?s0 =>
        destruct (fetch_all_frame h ts s0) as (_ & _ & Fr & _);
        pose proof (fetch_all_trace h ts s0) as Ftr
      end
    end; simpl in *; [done|].
    by rewrite Fr, Ftr, shown_fetches.
  - match goal with |- context [settle _ ?fo ?s] =>
      destruct (settle_cases searchId fo s) as [(arts & _ & ->)|(_ & ->)] end; done.
Qed.

Lemma shown_run evs : ∀ st st',
  results st = shown (trace st) → run st evs = Some st' →
  results st' = shown (trace st').
Proof.
  induction evs as [|e evs IH]; intros st st' Hc Hrun; simpl in Hrun.
  - by simplify_eq.
  - destruct (step st e) as [st1|] eqn:Hstep; [|done].
    eapply IH; [|done]. by eapply shown_step.
Qed.

Lemma shown_cleared new t tr :
  Forall (λ ta, is_commit ta.2 = false) new → shown (new ++ (t, Cleared) :: tr) = None.
Proof.
  induction new as [|[t' a] new IH]; intros Hnew; simpl; [done|].
  inversion Hnew as [|? ? Ha Hnew']; subst. simpl in Ha.
  destruct a; try done; by apply IH.
Qed.

Lemma shown_Some tr r :
  shown tr = Some r → ∃ t h, (t, Committed h r) ∈ tr.
Proof.
  induction tr as [|[t a] tr IH]; simpl; [done|].
  destruct a; try done.
  - intros H. destruct (IH H) as (t' & h' & Hin). exists t', h'. by right.
  - intros H. destruct (IH H) as (t' & h' & Hin). exists t', h'. by right.
  - intros H. destruct (IH H) as (t' & h' & Hin). exists t', h'. by right.
  - intros [= ->]. exists t, searchId. by left.
Qed.

Lemma at_most_current_init : at_most_current init.
Proof. intros h [tm Htm]. simpl in Htm. by rewrite lookup_empty in Htm. Qed.

(** After the effect has run exactly its own timer is scheduled. *)
Lemma effect_timers q st :
  at_most_current st →
  timers (effect q st)
  = {[ next_handle st := {| deadline := now st + QUIET; terms := tokenize q |} ]}.
Proof.
  intros Hw. unfold effect; simpl. apply map_eq. intros h.
  destruct (decide (h = next_handle st)) as [->|Hne].
  - by rewrite lookup_insert_eq, lookup_singleton_eq.
  - rewrite lookup_insert_ne, lookup_singleton_ne by done.
    destruct (searchDebounce st) as [cur|] eqn:Hcur; simpl.
    + destruct (decide (h = cur)) as [->|Hne']; [by rewrite lookup_delete_eq|].
      rewrite lookup_delete_ne by done.
      destruct (timers st !! h) eqn:E; [|done].
      specialize (Hw h (mk_is_Some _ _ E)). congruence.
    + destruct (timers st !! h) eqn:E; [|done].
      specialize (Hw h (mk_is_Some _ _ E)). congruence.
Qed.

Lemma at_most_current_step st e st' :
  at_most_current st → step st e = Some st' → at_most_current st'.
Proof.
  intros Hw Hstep.
  destruct e as [q|dt|h|h r|h idx o]; simpl in Hstep.
  - simplify_eq. intros h. rewrite effect_timers by done.
    intros [tm Htm]. apply lookup_singleton_Some in Htm as [<- _]. done.
  - by simplify_eq.
  - unfold fire in Hstep. repeat case_match; simplify_eq.
    intros h' [tm Htm]. simpl in *.
    apply lookup_delete_Some in Htm as [_ Htm]. apply Hw. by eexists.
  - unfold resume_search in Hstep. repeat case_match; simplify_eq; try done.
    match goal with |- context [settle _ ?fo ?s] =>
      destruct (settle_cases h fo s) as [(arts & _ & ->)|(_ & ->)];
      match s with fetch_all ?h ?ts ?s0 =>
        destruct (fetch_all_frame h ts s0) as (_ & _ & _ & Fd & _ & Ft & _) end
    end; intros h'; simpl; rewrite Fd, Ft; apply Hw.
  - unfold resume_fetch in Hstep. repeat case_match; simplify_eq; try done.
    match goal with |- context [settle _ ?fo ?s] =>
      destruct (settle_cases h fo s) as [(arts & _ & ->)|(_ & ->)] end; done.
Qed.

Lemma at_most_current_run evs : ∀ st st',
  at_most_current st → run st evs = Some st' → at_most_current st'.
Proof.
  induction evs as [|e evs IH]; intros st st' Hc Hrun; simpl in Hrun.
  - by simplify_eq.
  - destruct (step st e) as [st1|] eqn:Hstep; [|done].
    eapply IH; [|done]. by eapply at_most_current_step.
Qed.

Lemma well_staged_init : well_staged init.
Proof.
  split; simpl.
  - intros h [? H]. by rewrite lookup_empty in H.
  - intros h H. set_solver.
  - intros h [? H]. by rewrite lookup_empty in H.
Qed.

Lemma clearTimeout_None cur (m : gmap N Timer) h :
  m !! h = None → clearTimeout cur m !! h = None.
Proof.
  intros H. destruct cur as [c|]; simpl; [|done].
  rewrite lookup_delete. by case_decide.
Qed.

Lemma clearTimeout_Some cur (m : gmap N Timer) h :
  is_Some (clearTimeout cur m !! h) → is_Some (m !! h).
Proof.
  destruct cur as [c|]; simpl; [|done].
  rewrite lookup_delete. by case_decide; [intros [? ?]|].
Qed.

Lemma well_staged_settle h fo st :
  well_staged st → timers st !! h = None → h ∉ awaiting_search st →
  h < next_handle st → well_staged (settle h fo st).
Proof.
  intros [W1 W2 W3] Ht Hs Hlt.
  destruct (settle_cases h fo st) as [(arts & _ & ->)|(_ & ->)]; split; simpl.
  - intros h' Hh'. destruct (W1 h' Hh') as [? ?]. split; [done|].
    rewrite lookup_delete. by case_decide.
  - intros h' Hh'. destruct (W2 h' Hh') as (? & ? & ?). repeat split; try done.
    rewrite lookup_delete. by case_decide.
  - intros h' [x Hh']. apply lookup_delete_Some in Hh' as [_ Hh']. apply W3. by eexists.
  - intros h' Hh'. destruct (W1 h' Hh') as [? ?]. split; [done|].
    rewrite lookup_insert_ne; [done|]. intros ->. destruct Hh'. congruence.
  - intros h' Hh'. destruct (W2 h' Hh') as (? & ? & ?). repeat split; try done.
    rewrite lookup_insert_ne; [done|]. by intros ->.
  - intros h' [x Hh']. destruct (decide (h = h')) as [<-|Hne]; [done|].
    rewrite lookup_insert_ne in Hh' by done. apply W3. by eexists.
Qed.

Lemma well_staged_step st e st' :
  well_staged st → step st e = Some st' → well_staged st'.
Proof.
  intros W Hstep.
  destruct e as [q|dt|h|h r|h idx o]; simpl in Hstep.
  - (* Submit *)
    simplify_eq. destruct W as [W1 W2 W3]. split; simpl.
    + intros h [x Hh]. destruct (decide (h = next_handle st)) as [->|Hne].
      * split; [lia|]. destruct (awaiting_articles st !! next_handle st) eqn:E; [|done].
        specialize (W3 _ (mk_is_Some _ _ E)). lia.
      * rewrite lookup_insert_ne in Hh by done.
        destruct (W1 h) as [? ?]; [|split; [lia|done]].
        eapply clearTimeout_Some. by eexists.
    + intros h Hh. destruct (W2 h Hh) as (? & ? & ?). repeat split; [lia| |done].
      rewrite lookup_insert_ne by lia. by apply clearTimeout_None.
    + intros h Hh. specialize (W3 h Hh). lia.
  - simplify_eq. destruct W. by split.
  - (* Fire *)
    unfold fire in Hstep. repeat case_match; simplify_eq.
    destruct W as [W1 W2 W3]. split; simpl.
    + intros h' [x Hh']. apply lookup_delete_Some in Hh' as [_ Hh'].
      apply W1. by eexists.
    + intros h' Hh'. apply elem_of_union in Hh' as [Hh'|Hh'].
      * apply elem_of_singleton in Hh' as ->.
        destruct (W1 h) as [? ?]; [by eexists|].
        by rewrite lookup_delete_eq.
      * destruct (W2 h' Hh') as (? & ? & ?). repeat split; try done.
        rewrite lookup_delete. by case_decide.
    + done.
  - (* SearchReply *)
    unfold resume_search in Hstep.
    destruct (bool_decide (h ∈ awaiting_search st)) eqn:Hin; [|done].
    apply bool_decide_eq_true_1 in Hin.
    assert (well_staged (set_awaiting_search (awaiting_search st ∖ {[h]}) st)) as W'.
    { destruct W as [W1 W2 W3]. split; simpl; [done| |done].
      intros h' Hh'. apply W2. set_solver. }
    destruct (staged_search _ W h Hin) as (Hlt & Hth & Hah).
    destruct r as [|titles m]; [by simplify_eq|].
    case_match; simplify_eq; [done|].
    match goal with |- context [fetch_all ?h ?ts ?s] =>
      destruct (fetch_all_frame h ts s) as (_ & _ & _ & _ & Fh & Ft & Fs & Fa);
      set (st1 := fetch_all h ts s) in * end.
    simpl in *. apply well_staged_settle.
    + destruct W' as [W1 W2 W3]. split; rewrite ?Fh, ?Ft, ?Fs, ?Fa;
        simpl in *; done.
    + by rewrite Ft.
    + rewrite Fs. set_solver.
    + by rewrite Fh.
  - (* FetchReply *)
    unfold resume_fetch in Hstep.
    destruct (awaiting_articles st !! h) as [fo|] eqn:Hfo; [|by simplify_eq].
    assert (timers st !! h = None ∧ (h ∉ awaiting_search st) ∧ h < next_handle st)
      as (Hth & Hsh & Hlt).
    { destruct W as [W1 W2 W3]. repeat split.
      - destruct (timers st !! h) eqn:E; [|done].
        destruct (W1 h (mk_is_Some _ _ E)). congruence.
      - intros Hin. destruct (W2 h Hin) as (_ & _ & ?). congruence.
      - apply W3. by eexists. }
    repeat case_match; simplify_eq.
    + destruct W as [W1 W2 W3]. split; simpl.
      * intros h' Hh'. destruct (W1 h' Hh'). split; [done|].
        rewrite lookup_delete. by case_decide.
      * intros h' Hh'. destruct (W2 h' Hh') as (? & ? & ?). repeat split; try done.
        rewrite lookup_delete. by case_decide.
      * intros h' [x Hh']. apply lookup_delete_Some in Hh' as [_ Hh'].
        apply W3. by eexists.
    + by apply well_staged_settle.
Qed.

Lemma well_staged_run evs : ∀ st st',
  well_staged st → run st evs = Some st' → well_staged st'.
Proof.
  induction evs as [|e evs IH]; intros st st' Hc Hrun; simpl in Hrun.
  - by simplify_eq.
  - destruct (step st e) as [st1|] eqn:Hstep; [|done].
    eapply IH; [|done]. by eapply well_staged_step.
Qed.

End Invariants.

(** * Debouncing *)

Section Debounce.

Implicit Types (st : State) (e : Event) (evs : list Event) (h searchId : N).

Lemma searches_app new1 new2 : searches (new1 ++ new2) = searches new1 ++ searches new2.
Proof.
  induction new1 as [|[t a] new1 IH]; simpl; [done|].
  destruct a; simpl; by rewrite ?IH.
Qed.

Lemma searches_fetches h t titles :
  searches (rev (map (λ title, (t, Fetched h title)) titles)) = [].
Proof.
  induction titles as [|x titles IH]; simpl; [done|].
  by rewrite searches_app, IH.
Qed.

(** What an event other than a submission does to the timers. *)
Lemma quiet_step st e st' :
  is_submit e = false → step st e = Some st' →
  searchDebounce st' = searchDebounce st ∧ now st' = now st + elapsed [e] ∧
  ∃ new, trace st' = new ++ trace st ∧
    ((timers st' = timers st ∧ searches new = []) ∨
     (∃ h tm, timers st !! h = Some tm ∧ deadline tm ≤ now st ∧
        timers st' = delete h (timers st) ∧
        searches new = [(now st, h, terms tm)])).
Proof.
  intros Hns Hstep.
  destruct e as [q|dt|h|h r|h idx o]; simpl in Hstep; [done|..]; simpl elapsed.
  - simplify_eq. simpl. repeat split; [lia|]. exists []. eauto.
  - unfold fire in Hstep. destruct (timers st !! h) as [tm|] eqn:Htm; [|done].
    destruct (deadline tm <=? now st) eqn:Hd; [|done]. simplify_eq. simpl.
    repeat split; [lia|]. exists [(now st, Searched h (terms tm))].
    split; [done|]. right. exists h, tm. repeat split; try done.
    by apply N.leb_le.
  - unfold resume_search in Hstep. repeat case_match; simplify_eq; simpl;
      try (repeat split; [lia|]; exists []; by eauto).
    match goal with |- context [settle _ ?fo ?s] =>
      destruct (settle_cases h fo s) as [(arts & _ & ->)|(_ & ->)];
      match s with fetch_all ?h ?ts ?s0 =>
        destruct (fetch_all_frame h ts s0) as (Fn & _ & _ & Fd & _ & Ft & _);
        pose proof (fetch_all_trace h ts s0) as Ftr
      end
    end; simpl in *; rewrite Fd, Fn, Ft, Ftr; (repeat split; [lia|]).
    + eexists (_ :: _). split; [done|]. left. split; [done|]. simpl.
      apply searches_fetches.
    + eexists. split; [done|]. left. split; [done|]. apply searches_fetches.
  - unfold resume_fetch in Hstep. repeat case_match; simplify_eq; simpl;
      try (repeat split; [lia|]; exists []; by eauto).
    match goal with |- context [settle _ ?fo ?s] =>
      destruct (settle_cases h fo s) as [(arts & _ & ->)|(_ & ->)] end; simpl;
      (repeat split; [lia|]).
    + eexists [_]. split; [done|]. by left.
    + exists []. split; [done|]. by left.
Qed.

(** With no timer scheduled nothing fires until the next submission. *)
Lemma run_no_timer evs : ∀ st st',
  timers st = ∅ → Forall (λ e, is_submit e = false) evs → run st evs = Some st' →
  ∃ new, trace st' = new ++ trace st ∧ searches new = [].
Proof.
  induction evs as [|e evs IH]; intros st st' Ht Hns Hrun; simpl in Hrun.
  - simplify_eq. by exists [].
  - destruct (step st e) as [st1|] eqn:Hstep; [|done].
    inversion Hns as [|? ? He Hns']; subst.
    destruct (quiet_step _ _ _ He Hstep) as (_ & _ & new1 & Htr1 & Hcase).
    destruct Hcase as [[Ht1 Hs1]|(h & tm & Hh & _)].
    2:{ rewrite Ht, lookup_empty in Hh. done. }
    rewrite Ht in Ht1.
    destruct (IH _ _ Ht1 Hns' Hrun) as (new2 & Htr2 & Hs2).
    exists (new2 ++ new1). rewrite Htr2, Htr1, app_assoc, searches_app, Hs1, Hs2. done.
Qed.

(** With one timer scheduled, at most that one fires, and not before its
    deadline. *)
Lemma run_one_timer evs : ∀ st st' h tm,
  timers st = {[ h := tm ]} → Forall (λ e, is_submit e = false) evs →
  run st evs = Some st' →
  now st' = now st + elapsed evs ∧ searchDebounce st' = searchDebounce st ∧
  ∃ new, trace st' = new ++ trace st ∧
    ((timers st' = {[ h := tm ]} ∧ searches new = []) ∨
     (∃ t, deadline tm ≤ t ∧ t ≤ now st' ∧ searches new = [(t, h, terms tm)])).
Proof.
  induction evs as [|e evs IH]; intros st st' h tm Ht Hns Hrun; simpl in Hrun.
  - simplify_eq. simpl. repeat split; [lia|]. exists []. eauto.
  - destruct (step st e) as [st1|] eqn:Hstep; [|done].
    inversion Hns as [|? ? He Hns']; subst.
    destruct (quiet_step _ _ _ He Hstep) as (Hd1 & Hn1 & new1 & Htr1 & Hcase).
    assert (elapsed (e :: evs) = elapsed [e] + elapsed evs) as Hel.
    { destruct e; simpl; lia. }
    destruct Hcase as [[Ht1 Hs1]|(h' & tm' & Hh & Hdl & Ht1 & Hs1)].
    + rewrite Ht in Ht1.
      destruct (IH _ _ _ _ Ht1 Hns' Hrun) as (Hn2 & Hd2 & new2 & Htr2 & Hcase2).
      repeat split; [lia|congruence|].
      exists (new2 ++ new1). rewrite Htr2, Htr1, app_assoc, searches_app, Hs1, app_nil_r.
      split; [done|]. exact Hcase2.
    + rewrite Ht in Hh. apply lookup_singleton_Some in Hh as [<- <-].
      rewrite Ht, delete_singleton_eq in Ht1.
      destruct (run_no_timer _ _ _ Ht1 Hns' Hrun) as (new2 & Htr2 & Hs2).
      assert (now st' = now st1 + elapsed evs ∧ searchDebounce st' = searchDebounce st1)
        as [Hn2 Hd2].
      { clear -Hns' Hrun. revert st1 Hrun.
        induction evs as [|e' evs IH']; intros st1 Hrun; simpl in Hrun.
        - simplify_eq. split; [simpl; lia|done].
        - destruct (step st1 e') as [st2|] eqn:Hstep'; [|done].
          inversion Hns' as [|? ? He' Hns'']; subst.
          destruct (quiet_step _ _ _ He' Hstep') as (Hd & Hn & _).
          destruct (IH' Hns'' _ Hrun) as [Hn' Hd'].
          split; [|congruence]. rewrite Hn', Hn. destruct e'; simpl; lia. }
      repeat split; [lia|congruence|].
      exists (new2 ++ new1). rewrite Htr2, Htr1, app_assoc, searches_app, Hs1, Hs2.
      split; [done|]. right. exists (now st). simpl. repeat split; [done|lia].
Qed.

(** A quiet burst followed by a last submission and by events that are
    not submissions. *)
Lemma burst_fires_once b : ∀ st q tail st',
  at_most_current st → quiet b → Forall (λ e, is_submit e = false) tail →
  run st (burst b ++ Submit q :: tail) = Some st' →
  ∃ st_q new,
    run st (burst b) = Some st_q ∧ at_most_current st_q ∧
    trace st' = new ++ trace st ∧
    (searches new = [] ∨
     ∃ t, searches new = [(t, next_handle st_q, tokenize q)] ∧ now st_q + QUIET ≤ t).
Proof.
  induction b as [|[q0 evs0] b IH]; intros st q tail st' Hw Hq Htail Hrun.
  - simpl in Hrun.
    destruct (run_one_timer tail (effect q st) st' _ _ (effect_timers q st Hw) Htail Hrun)
      as (_ & _ & new & Htr & Hcase).
    exists st, (new ++ [(now st, Scheduled (next_handle st)); (now st, Cleared)]).
    split; [done|]. split; [done|]. split.
    { rewrite Htr. simpl. by rewrite <- app_assoc. }
    rewrite searches_app. simpl. rewrite app_nil_r.
    destruct Hcase as [[_ Hs]|(t & Hd & _ & Hs)]; [by left|].
    right. exists t. by split.
  - inversion Hq as [|? ? [Hns0 Hel0] Hq']; subst. simpl in Hns0, Hel0.
    simpl in Hrun. rewrite <- app_assoc, run_app in Hrun.
    destruct (run (effect q0 st) evs0) as [st2|] eqn:Hrun0; [|done].
    destruct (run_one_timer evs0 (effect q0 st) st2 _ _ (effect_timers q0 st Hw) Hns0 Hrun0)
      as (Hn2 & _ & new0 & Htr0 & Hcase0).
    assert (searches new0 = []) as Hs0.
    { destruct Hcase0 as [[_ ?]|(t & Hd & Ht & _)]; [done|].
      simpl in Hd, Hn2. lia. }
    assert (at_most_current st2) as Hw2.
    { eapply (at_most_current_run (Submit q0 :: evs0) st); [done|]. simpl. done. }
    destruct (IH st2 q tail st' Hw2 Hq' Htail Hrun) as (st_q & new & Hrunq & Hwq & Htr & Hcase).
    exists st_q, (new ++ new0 ++ [(now st, Scheduled (next_handle st)); (now st, Cleared)]).
    split.
    { simpl. by rewrite run_app, Hrun0. }
    split; [done|]. split.
    { rewrite Htr, Htr0. simpl. by rewrite <- !app_assoc. }
    rewrite !searches_app, Hs0. simpl. by rewrite app_nil_r.
Qed.

End Debounce.

(** * Fan-out *)

Section Fanout.

Implicit Types (st : State) (h : N) (fo : Fanout).

Lemma all_settled_map {A} (xs : list A) : all_settled (map Some xs) = Some xs.
Proof. induction xs as [|x xs IH]; simpl; [done|]. by rewrite IH. Qed.

Lemma all_settled_outstanding {A} (slots : list (option A)) j :
  slots !! j = Some None → all_settled slots = None.
Proof.
  revert j. induction slots as [|[x|] slots IH]; intros j Hj; simpl; [done| |done].
  destruct j as [|j]; [done|]. simpl in Hj. by rewrite (IH j).
Qed.

Lemma all_settled_full {A} (slots : list (option A)) (f : nat → A) :
  (∀ i, (i < length slots)%nat → slots !! i = Some (Some (f i))) →
  all_settled slots = Some (map f (seq 0 (length slots))).
Proof.
  intros Hall. rewrite <- all_settled_map. f_equal.
  apply list_eq. intros i. rewrite !list_lookup_fmap.
  destruct (decide (i < length slots)%nat) as [Hi|Hi].
  - rewrite (Hall i Hi), lookup_seq_lt by done. done.
  - rewrite lookup_ge_None_2 by lia. rewrite lookup_seq_ge by lia. done.
Qed.

Lemma lookup_map_const {A B} (l : list A) (y : B) i :
  map (λ _, y) l !! i = Some y ↔ (i < length l)%nat.
Proof.
  revert i. induction l as [|x l IH]; intros [|i]; simpl; try (split; [done|lia]).
  - split; [lia|done].
  - rewrite IH. lia.
Qed.

(** Once every outstanding lookup has answered, in whatever order, the
    attempt commits the classification of the answers taken in the order
    of the titles. *)
Lemma fanout_run h status body : ∀ order st fo,
  awaiting_articles st !! h = Some fo →
  NoDup order → order ≠ [] →
  (∀ i, i ∈ order ↔ fo_slots fo !! i = Some None) →
  (∀ i, (i < length (fo_slots fo))%nat → i ∉ order →
        fo_slots fo !! i = Some (Some (article_of (status i) (body i)))) →
  run st (fetch_replies h status body order)
  = Some (commit h (resolved status body (length (fo_slots fo))) (fo_more fo)
            (set_awaiting_articles (delete h (awaiting_articles st)) st)).
Proof.
  induction order as [|i order IH]; intros st fo Hfo Hnd Hne Hout Hin; [done|].
  simpl. unfold resume_fetch. rewrite Hfo.
  rewrite (proj1 (Hout i)) by (by left).
  apply NoDup_cons in Hnd as [Hi Hnd].
  assert (i < length (fo_slots fo))%nat as Hlen.
  { apply lookup_lt_is_Some. rewrite (proj1 (Hout i)); [by eexists|by left]. }
  set (fo' := {| fo_more := fo_more fo;
                 fo_slots := <[i:=Some (article_of (status i) (body i))]> (fo_slots fo) |}).
  assert (∀ j, (j < length (fo_slots fo'))%nat → j ∉ order →
               fo_slots fo' !! j = Some (Some (article_of (status j) (body j)))) as Hin'.
  { intros j Hj Hjo. simpl in *. rewrite length_insert in Hj.
    destruct (decide (j = i)) as [->|Hji].
    - by rewrite list_lookup_insert_eq.
    - rewrite list_lookup_insert_ne by done. apply Hin; [done|].
      rewrite not_elem_of_cons. done. }
  destruct order as [|i' order'].
  - (* the last answer *)
    simpl. unfold settle.
    rewrite (all_settled_full _ (λ j, article_of (status j) (body j))).
    2:{ intros j Hj. apply Hin'; [done|]. apply not_elem_of_nil. }
    simpl. by rewrite length_insert.
  - (* more answers to come *)
    assert (fo_slots fo' !! i' = Some None) as Hi'.
    { simpl. rewrite list_lookup_insert_ne.
      - apply Hout. right. by left.
      - intros ->. apply Hi. by left. }
    unfold settle. fold fo'. rewrite (all_settled_outstanding _ _ Hi').
    rewrite (IH _ fo'); try done.
    + simpl. rewrite length_insert, delete_insert_eq. done.
    + simpl. by rewrite lookup_insert_eq.
    + intros j. simpl. destruct (decide (j = i)) as [->|Hji].
      * split; [done|]. rewrite list_lookup_insert_eq by done. done.
      * rewrite list_lookup_insert_ne by done. rewrite <- Hout.
        rewrite (elem_of_cons (i' :: order') j i). naive_solver.
Qed.

(** A current attempt whose search succeeds and whose lookups all answer
    commits: the helper shared by the results on classification and on
    failed lookups. *)
Lemma attempt_commits st h titles m status body order :
  h ∈ awaiting_search st → searchDebounce st = Some h →
  order ≡ₚ seq 0 (length titles) →
  ∃ st',
    run st (SearchReply h (SearchOk titles m) :: fetch_replies h status body order)
    = Some st' ∧
    results st' = Some (classify (resolved status body (length titles)) m) ∧
    trace st'
    = (now st, Committed h (classify (resolved status body (length titles)) m))
      :: rev (map (λ t, (now st, Fetched h t)) titles) ++ trace st.
Proof.
  intros Hh Hcur Hperm. simpl. unfold resume_search.
  rewrite bool_decide_eq_true_2 by done. simpl.
  rewrite bool_decide_eq_false_2 by (rewrite Hcur; naive_solver).
  set (st0 := set_awaiting_search (awaiting_search st ∖ {[h]}) st).
  destruct (fetch_all_frame h titles st0) as (Fn & _ & _ & _ & _ & _ & _ & Fa).
  pose proof (fetch_all_trace h titles st0) as Ftr.
  set (st1 := fetch_all h titles st0) in *. clearbody st1.
  change (now st0) with (now st) in *. change (trace st0) with (trace st) in Ftr.
  destruct titles as [|t titles].
  - apply Permutation_nil_r in Hperm as ->. simpl. eexists. split; [done|].
    unfold settle. simpl. split; [done|]. simpl in Ftr. by rewrite Fn, Ftr.
  - set (fo := {| fo_more := m; fo_slots := map (λ _, None) (t :: titles) |}).
    unfold settle. simpl fo_slots. cbn [all_settled map].
    erewrite (fanout_run h status body order _ fo).
    + eexists. split; [done|]. unfold fo. cbn [fo_slots]. rewrite length_map.
      split; [done|].
      cbn [commit log setResults set_awaiting_articles trace now fo_more].
      by rewrite Fn, Ftr.
    + simpl. by rewrite lookup_insert_eq.
    + rewrite Hperm. apply NoDup_seq.
    + intros ->. by apply Permutation_nil_l in Hperm.
    + intros i. rewrite Hperm, elem_of_seq. unfold fo. cbn [fo_slots].
      rewrite lookup_map_const. lia.
    + intros i Hi Hni. exfalso. apply Hni. rewrite Hperm, elem_of_seq.
      unfold fo in Hi. cbn [fo_slots] in Hi. rewrite length_map in Hi. lia.
Qed.

End Fanout.

(** * Histories *)

Section History.

Implicit Types (st : State) (e : Event) (evs rest : list Event) (h : N).

Lemma run_snoc st evs e :
  run st (evs ++ [e])
  = match run st evs with Some st1 => step st1 e | None => None end.
Proof.
  rewrite run_app. destruct (run st evs) as [st1|]; [|done].
  simpl. by destruct (step st1 e).
Qed.

Lemma search_reply_found h evs e r rest :
  search_reply h evs = Some (r, rest) →
  search_reply h (evs ++ [e]) = Some (r, rest ++ [e]).
Proof.
  induction evs as [|e' evs IH]; simpl; [done|].
  destruct e'; try apply IH.
  case_bool_decide; [|apply IH]. by intros [= -> ->].
Qed.

Lemma search_reply_missing h evs e :
  search_reply h evs = None →
  search_reply h (evs ++ [e]) = search_reply h [e].
Proof.
  induction evs as [|e' evs IH]; simpl; [done|].
  destruct e'; try apply IH.
  case_bool_decide; [done|apply IH].
Qed.

Lemma lookup_reply_found h i rest e o :
  lookup_reply h i rest = Some o → lookup_reply h i (rest ++ [e]) = Some o.
Proof.
  induction rest as [|e' rest IH]; simpl; [done|].
  destruct e'; try apply IH.
  case_bool_decide; [done|apply IH].
Qed.

Lemma lookup_reply_missing h i rest e :
  lookup_reply h i rest = None →
  lookup_reply h i (rest ++ [e]) = lookup_reply h i [e].
Proof.
  induction rest as [|e' rest IH]; simpl; [done|].
  destruct e'; try apply IH.
  case_bool_decide; [done|apply IH].
Qed.

Lemma lookup_reply_other h i rest e :
  (∀ o, e ≠ FetchReply h i o) →
  lookup_reply h i (rest ++ [e]) = lookup_reply h i rest.
Proof.
  intros He. destruct (lookup_reply h i rest) as [o|] eqn:E.
  - by apply lookup_reply_found.
  - rewrite lookup_reply_missing by done. destruct e; try done. simpl.
    case_bool_decide as Hhi; [|done]. destruct Hhi as [-> ->].
    by destruct (He o).
Qed.

(** A result once committed keeps its history. *)
Lemma commit_history_snoc evs e h r :
  commit_history evs h r → commit_history (evs ++ [e]) h r.
Proof.
  intros (titles & m & rest & status & body & Hs & Ha & Hr).
  exists titles, m, (rest ++ [e]), status, body. split; [|split; [|done]].
  - by apply search_reply_found.
  - intros i Hi. apply lookup_reply_found. by apply Ha.
Qed.

(** A fan-out keeps its history under events that are not answers to its
    lookups. *)
Lemma fanout_history_snoc evs e h fo :
  (∀ i o, e ≠ FetchReply h i o) →
  fanout_history evs h fo → fanout_history (evs ++ [e]) h fo.
Proof.
  intros He (titles & rest & Hs & Hlen & Hslots).
  exists titles, (rest ++ [e]). split; [by apply search_reply_found|].
  split; [done|]. intros i Hi. rewrite lookup_reply_other by done. by apply Hslots.
Qed.

Lemma search_reply_unsearched evs e h :
  (∀ r, e ≠ SearchReply h r) →
  search_reply h evs = None → search_reply h (evs ++ [e]) = None.
Proof.
  intros He Hs. rewrite search_reply_missing by done.
  destruct e; try done. simpl. case_bool_decide as Hh; [|done].
  subst. by destruct (He r).
Qed.

(** Events that start no fan-out, commit nothing and answer no lookup of
    an attempt that is waiting for one. *)
Lemma history_frame evs st e st' :
  history_ok evs st →
  (∀ h fo, awaiting_articles st' !! h = Some fo →
     awaiting_articles st !! h = Some fo ∧ ∀ i o, e ≠ FetchReply h i o) →
  (∀ t h r, (t, Committed h r) ∈ trace st' → (t, Committed h r) ∈ trace st) →
  (∀ h, h ∈ awaiting_search st' ∨ is_Some (timers st' !! h) ∨ next_handle st' ≤ h →
     (h ∈ awaiting_search st ∨ is_Some (timers st !! h) ∨ next_handle st ≤ h) ∧
     ∀ r, e ≠ SearchReply h r) →
  history_ok (evs ++ [e]) st'.
Proof.
  intros [H1 H2 H3] Hfan Hcom Huns. split.
  - intros h fo Hfo. destruct (Hfan h fo Hfo) as [Hfo0 He].
    apply fanout_history_snoc; [done|]. by apply H1.
  - intros t h r Hin. apply commit_history_snoc. eapply H2. by apply Hcom.
  - intros h Hh. destruct (Huns h Hh) as [Hh0 He].
    apply search_reply_unsearched; [done|]. by apply H3.
Qed.

Lemma all_settled_inv {A} (slots : list (option A)) xs :
  all_settled slots = Some xs → slots = map Some xs.
Proof.
  revert xs. induction slots as [|[x|] slots IH]; intros xs; simpl; [by intros [= <-]| |done].
  destruct (all_settled slots) as [ys|]; [|done].
  intros [= <-]. simpl. by rewrite (IH ys).
Qed.

Lemma elem_of_fetches (t : N) h titles (x : N * Action) :
  x ∈ rev (map (λ title, (t, Fetched h title)) titles) → ∃ title, x = (t, Fetched h title).
Proof.
  intros Hin. apply list_elem_of_In, in_rev, in_map_iff in Hin as (title & <- & _).
  by eexists.
Qed.

Lemma history_init : history_ok [] init.
Proof.
  split; simpl.
  - intros h fo H. by rewrite lookup_empty in H.
  - intros t h r H. by apply elem_of_nil in H.
  - done.
Qed.

(** A fan-out whose slots are all settled gives the commit its history:
    the articles are the answers to the lookups, in the order of the
    titles. *)
Lemma fanout_settled evs h fo articles :
  fanout_history evs h fo → all_settled (fo_slots fo) = Some articles →
  commit_history evs h (classify articles (fo_more fo)).
Proof.
  intros (titles & rest & Hs & Hlen & Hslots) Hall.
  apply all_settled_inv in Hall.
  exists titles, (fo_more fo), rest,
    (λ i, status_of (lookup_reply h i rest)), (λ i, body_of (lookup_reply h i rest)).
  split; [done|].
  assert (∀ i, (i < length titles)%nat →
            ∃ status metadata,
              lookup_reply h i rest = Some (FetchResponse status metadata) ∧
              articles !! i = Some (article_of status metadata)) as Hans.
  { intros i Hi. destruct (Hslots i Hi) as [Hslot Hrej].
    rewrite Hall in Hslot. change (map Some articles) with (Some <$> articles) in Hslot.
    rewrite list_lookup_fmap in Hslot.
    destruct (lookup_reply h i rest) as [[|status metadata]|]; simpl in Hslot.
    - done.
    - exists status, metadata. split; [done|].
      destruct (articles !! i); simpl in Hslot; by simplify_eq.
    - destruct (articles !! i); simpl in Hslot; by simplify_eq. }
  split.
  - intros i Hi. destruct (Hans i Hi) as (status & metadata & -> & _). done.
  - f_equal. apply list_eq. intros i. unfold resolved.
    change (map ?f ?l) with (f <$> l). rewrite list_lookup_fmap.
    assert (length articles = length titles) as Hla.
    { rewrite <- Hlen, Hall. by rewrite length_map. }
    destruct (decide (i < length titles)%nat) as [Hi|Hi].
    + rewrite lookup_seq_lt by done. simpl.
      destruct (Hans i Hi) as (status & metadata & -> & ->). done.
    + rewrite lookup_seq_ge by lia. simpl. apply lookup_ge_None_2. lia.
Qed.

Lemma history_settle evs st h0 fo :
  (∀ h fo', h ≠ h0 → awaiting_articles st !! h = Some fo' → fanout_history evs h fo') →
  (∀ t h r, (t, Committed h r) ∈ trace st → commit_history evs h r) →
  (∀ h, h ∈ awaiting_search st ∨ is_Some (timers st !! h) ∨ next_handle st ≤ h →
        search_reply h evs = None) →
  fanout_history evs h0 fo →
  history_ok evs (settle h0 fo st).
Proof.
  intros H1 H2 H3 Hfo.
  destruct (settle_cases h0 fo st) as [(arts & Hall & ->)|(_ & ->)]; split; simpl.
  - intros h fo' Hh. apply lookup_delete_Some in Hh as [Hne Hh]. by apply (H1 h fo').
  - intros t h r Hin. apply elem_of_cons in Hin as [[= -> -> ->]|Hin].
    + by apply fanout_settled.
    + by eapply H2.
  - done.
  - intros h fo' Hh. destruct (decide (h = h0)) as [->|Hne].
    + rewrite lookup_insert_eq in Hh. by simplify_eq.
    + rewrite lookup_insert_ne in Hh by done. by apply (H1 h fo').
  - done.
  - done.
Qed.

(** Every step keeps the state in agreement with the history. *)
Lemma history_step evs st e st' :
  well_staged st → history_ok evs st → step st e = Some st' →
  history_ok (evs ++ [e]) st'.
Proof.
  intros W H Hstep.
  destruct e as [q|dt|h0|h0 r0|h0 idx o]; simpl in Hstep.
  - (* Submit *)
    simplify_eq. apply (history_frame evs st); [done|..].
    + intros h fo Hfo. split; [done|]. done.
    + intros t h r Hin. simpl in Hin.
      apply elem_of_cons in Hin as [?|Hin]; [done|].
      by apply elem_of_cons in Hin as [?|Hin].
    + intros h Hh. split; [|done]. simpl in Hh.
      destruct Hh as [Hh|[Hh|Hh]]; [by left| |right; right; lia].
      destruct (decide (h = next_handle st)) as [->|Hne]; [right; right; lia|].
      rewrite lookup_insert_ne in Hh by done.
      right. left. by eapply clearTimeout_Some.
  - (* Elapse *)
    simplify_eq. by apply (history_frame evs st).
  - (* Fire *)
    unfold fire in Hstep. destruct (timers st !! h0) as [tm|] eqn:Htm; [|done].
    destruct (deadline tm <=? now st); [|done]. simplify_eq.
    apply (history_frame evs st); [done|..].
    + intros h fo Hfo. by split.
    + intros t h r Hin. simpl in Hin. by apply elem_of_cons in Hin as [?|Hin].
    + intros h Hh. split; [|done]. simpl in Hh.
      destruct Hh as [Hh|[Hh|Hh]]; [|right; left|by right; right].
      * apply elem_of_union in Hh as [Hh|Hh]; [|by left].
        apply elem_of_singleton in Hh as ->. right. left. by eexists.
      * destruct Hh as [x Hx]. apply lookup_delete_Some in Hx as [_ Hx]. by eexists.
  - (* SearchReply *)
    unfold resume_search in Hstep.
    destruct (bool_decide (h0 ∈ awaiting_search st)) eqn:Hin; [|done].
    apply bool_decide_eq_true_1 in Hin.
    destruct (staged_search _ W h0 Hin) as (Hlt & Hth & Hah).
    pose proof (history_unsearched _ _ H h0 (or_introl Hin)) as Hnone.
    assert (∀ h, h ∈ awaiting_search st ∖ {[h0]} ∨ is_Some (timers st !! h)
                 ∨ next_handle st ≤ h →
              search_reply h (evs ++ [SearchReply h0 r0]) = None) as Huns.
    { intros h Hh. assert (h ≠ h0) as Hne.
      { destruct Hh as [Hh|[[x Hx]|Hh]]; [set_solver|congruence|lia]. }
      apply search_reply_unsearched; [congruence|].
      apply (history_unsearched _ _ H). set_solver. }
    assert (history_ok (evs ++ [SearchReply h0 r0])
              (set_awaiting_search (awaiting_search st ∖ {[h0]}) st)) as Hstop.
    { split; simpl.
      - intros h fo Hfo. apply fanout_history_snoc; [done|].
        by apply (history_fanout _ _ H).
      - intros t h r Hc. apply commit_history_snoc. by eapply (history_commit _ _ H).
      - done. }
    destruct r0 as [|titles m]; [by simplify_eq|].
    case_match; simplify_eq; [done|].
    match goal with |- context [fetch_all ?h ?ts ?s] =>
      destruct (fetch_all_frame h ts s) as (_ & _ & _ & _ & Fh & Ft & Fs & Fa);
      pose proof (fetch_all_trace h ts s) as Ftr;
      set (st1 := fetch_all h ts s) in * end.
    simpl in *. apply history_settle.
    + intros h fo' Hne Hfo. rewrite Fa in Hfo. by apply (history_fanout _ _ Hstop).
    + intros t h r Hc. rewrite Ftr in Hc. apply elem_of_app in Hc as [Hc|Hc].
      * apply elem_of_fetches in Hc as [title Hc]. done.
      * by apply (history_commit _ _ Hstop t).
    + intros h Hh. rewrite Fs, Ft, Fh in Hh. by apply Huns.
    + exists titles, []. split.
      { rewrite search_reply_missing by done. simpl.
        by rewrite bool_decide_eq_true_2. }
      simpl. rewrite length_map. split; [done|].
      intros i Hi. split; [|done]. by apply lookup_map_const.
  - (* FetchReply *)
    unfold resume_fetch in Hstep.
    destruct (awaiting_articles st !! h0) as [fo|] eqn:Hfo.
    2:{ simplify_eq. apply (history_frame evs st'); [done|..]; try done.
        intros h fo Hh. split; [done|]. intros i o' [= -> _ _]. congruence. }
    destruct (fo_slots fo !! idx) as [[x|]|] eqn:Hslot; try done.
    destruct (history_fanout _ _ H h0 fo Hfo) as (titles & rest & Hs & Hlen & Hslots).
    assert (idx < length titles)%nat as Hidx.
    { rewrite <- Hlen. by eapply lookup_lt_Some. }
    assert (lookup_reply h0 idx rest = None) as Hpending.
    { destruct (Hslots idx Hidx) as [Hsl Hrej]. rewrite Hslot in Hsl.
      destruct (lookup_reply h0 idx rest) as [[|? ?]|]; simpl in Hsl; by simplify_eq. }
    destruct o as [|status metadata]; simplify_eq.
    + (* rejected *)
      apply (history_frame evs st); [done|..]; try done.
      intros h fo' Hh. simpl in Hh. apply lookup_delete_Some in Hh as [Hne Hh].
      split; [done|]. intros i o' [= <- _ _]. done.
    + (* answered *)
      apply history_settle.
      * intros h fo' Hne Hh. apply fanout_history_snoc.
        -- intros i o' [= <- _ _]. done.
        -- by apply (history_fanout _ _ H).
      * intros t h r Hc. apply commit_history_snoc. by eapply (history_commit _ _ H).
      * intros h Hh. apply search_reply_unsearched; [done|].
        by apply (history_unsearched _ _ H).
      * exists titles, (rest ++ [FetchReply h0 idx (FetchResponse status metadata)]).
        split; [by apply search_reply_found|]. simpl.
        split; [by rewrite length_insert|].
        intros i Hi. destruct (decide (i = idx)) as [->|Hne].
        -- rewrite list_lookup_insert_eq by lia.
           rewrite lookup_reply_missing by done. simpl.
           rewrite bool_decide_eq_true_2 by done. done.
        -- rewrite list_lookup_insert_ne by done.
           rewrite lookup_reply_other; [by apply Hslots|].
           intros o' [= ?]. done.
Qed.

Lemma history_run evs : ∀ st,
  run init evs = Some st → history_ok evs st.
Proof.
  induction evs as [|e evs IH] using rev_ind; intros st Hrun.
  - simpl in Hrun. simplify_eq. apply history_init.
  - rewrite run_snoc in Hrun.
    destruct (run init evs) as [st1|] eqn:Hrun1; [|done].
    eapply history_step; [|by apply IH|done].
    exact (well_staged_run evs init st1 well_staged_init Hrun1).
Qed.

End History.

(** * The properties of the hook *)

Section Claims.

Implicit Types (st : State) (e : Event) (evs : list Event) (h : N).

(** C5: tokenization cuts the raw query at every maximal run of characters
    outside [[A-Za-z0-9]], drops the empty fragments and lowercases the
    others.  It is a total function: whatever the query, its terms are the
    lowercased words of the one decomposition of the query into separator
    runs and maximal words; every term is non-empty and made of
    [[a-z0-9]]; ["Hello, World! 42"] gives [hello], [world], [42], and a
    blank query gives no term. *)
Theorem tokenize_fragments (q : jsstring) :
  (∃ ws, Fragments q ws ∧ tokenize q = map toLowerCase ws) ∧
  (∀ ws, Fragments q ws → tokenize q = map toLowerCase ws) ∧
  Forall (λ t, t ≠ [] ∧ Forall (λ c, is_lower_alnum c = true) t) (tokenize q) ∧
  tokenize (str "Hello, World! 42") = [str "hello"; str "world"; str "42"] ∧
  tokenize (str "   ") = [].
Proof.
  assert (∀ ws, Fragments q ws → tokenize q = map toLowerCase ws) as Hspec.
  { intros ws Hws. unfold tokenize. by rewrite (Fragments_split _ _ Hws). }
  destruct (Fragments_total q) as [ws Hws].
  split; [by eauto|]. split; [done|]. split; [|done].
  rewrite (Hspec _ Hws). apply Forall_map.
  eapply Forall_impl; [exact (Fragments_words _ _ Hws)|].
  intros w [Hne Hw]. split.
  - by destruct w.
  - unfold toLowerCase. apply Forall_map.
    eapply Forall_impl; [exact Hw|]. intros c. apply lower_alnum.
Qed.

Lemma tokenize_fragments_witness :
  Fragments (str "Hi you") [str "Hi"; str "you"] ∧
  tokenize (str "Hi you") = [str "hi"; str "you"].
Proof.
  assert (Fragments (str "Hi you") [str "Hi"; str "you"]) as H.
  { apply (Fragments_word [] (str "Hi") (str " you") [str "you"]); try done.
    - by repeat constructor.
    - apply (Fragments_word (str " ") (str "you") [] []); try done.
      + by repeat constructor.
      + by repeat constructor.
      + by constructor. }
  split; [exact H|].
  exact (proj1 (proj2 (tokenize_fragments (str "Hi you"))) _ H).
Defined.

(** C2: every result the hook shows is the classification of the answers
    to the lookups of one attempt, taken in the order of the titles its
    search returned.  In it an entity id occurs at most once in the two
    sequences taken together (so in at most one of them), and the
    summaries kept are exactly those that come first with their id among
    the successful lookups in that order. *)
Theorem committed_results_deduplicated evs st r :
  run init evs = Some st → results st = Some r →
  ∃ h titles m rest status body,
    search_reply h evs = Some (SearchOk titles m, rest) ∧
    (∀ i, (i < length titles)%nat →
       lookup_reply h i rest = Some (FetchResponse (status i) (body i))) ∧
    r = classify (resolved status body (length titles)) m ∧
    NoDup (id <$> (fullArticles r ++ basicArticles r)) ∧
    ∀ a, a ∈ fullArticles r ++ basicArticles r
         ↔ first_with_id (id a) (resolved status body (length titles)) = Some a.
Proof.
  intros Hrun Hr.
  pose proof (shown_run _ _ _ (eq_refl : results init = shown (trace init)) Hrun)
    as Hshown.
  rewrite Hshown in Hr. apply shown_Some in Hr as (t & h & Hin).
  destruct (history_commit _ _ (history_run evs st Hrun) t h r Hin)
    as (titles & m & rest & status & body & Hs & Ha & ->).
  exists h, titles, m, rest, status, body.
  split; [done|]. split; [exact Ha|]. split; [done|]. split.
  - apply classify_nodup.
  - intros a. apply classify_kept.
Qed.

Lemma committed_results_deduplicated_witness :
  ∃ st r, run init redirect_search = Some st ∧ results st = Some r ∧
    id <$> fullArticles r = [6678%Z] ∧ id <$> basicArticles r = [1494648%Z] ∧
    ∃ h titles m rest status body,
      search_reply h redirect_search = Some (SearchOk titles m, rest) ∧
      (∀ i, (i < length titles)%nat →
         lookup_reply h i rest = Some (FetchResponse (status i) (body i))) ∧
      r = classify (resolved status body (length titles)) m ∧
      NoDup (id <$> (fullArticles r ++ basicArticles r)) ∧
      ∀ a, a ∈ fullArticles r ++ basicArticles r
           ↔ first_with_id (id a) (resolved status body (length titles)) = Some a.
Proof.
  assert (∃ st r, run init redirect_search = Some st ∧ results st = Some r ∧
            id <$> fullArticles r = [6678%Z] ∧ id <$> basicArticles r = [1494648%Z])
    as (st & r & Hrun & Hr & Hf & Hb).
  { vm_compute. eexists _, _. repeat split; reflexivity. }
  exists st, r. split; [done|]. split; [done|]. split; [done|]. split; [done|].
  exact (committed_results_deduplicated redirect_search st r Hrun Hr).
Defined.

(** C3: whatever the outcomes of the lookups, the classifier puts a kept
    summary with a non-empty image reference into [fullArticles] and a
    kept summary without one into [basicArticles], and [count] is the sum
    of the two lengths; the [more] flag of the result an attempt commits
    is the [more] flag of its search response. *)
Theorem classification_by_image :
  (∀ articles m,
     let r := classify articles m in
     (∀ a, first_with_id (id a) articles = Some a →
        ((∃ s, image a = Some s ∧ s ≠ EmptyString) → a ∈ fullArticles r) ∧
        (image a = None ∨ image a = Some EmptyString → a ∈ basicArticles r)) ∧
     Forall (λ a, ∃ s, image a = Some s ∧ s ≠ EmptyString) (fullArticles r) ∧
     Forall (λ a, image a = None ∨ image a = Some EmptyString) (basicArticles r) ∧
     count r = (length (fullArticles r) + length (basicArticles r))%nat ∧
     more r = m) ∧
  (∀ st h titles m status body order,
     h ∈ awaiting_search st → searchDebounce st = Some h →
     order ≡ₚ seq 0 (length titles) →
     ∃ st' r,
       run st (SearchReply h (SearchOk titles m) :: fetch_replies h status body order)
       = Some st' ∧
       results st' = Some r ∧
       r = classify (resolved status body (length titles)) m ∧
       more r = m).
Proof.
  split.
  - intros articles m r.
    destruct (classify_buckets articles m) as [Hfull Hbasic].
    fold r in Hfull, Hbasic.
    split; [|split; [|split; [|done]]].
    + intros a Hkept. apply (classify_kept articles m) in Hkept. fold r in Hkept.
      apply elem_of_app in Hkept as [Hin|Hin].
      * split; [done|]. intros Himg. apply has_image_false in Himg.
        eapply Forall_forall in Hfull; [|exact Hin]. simpl in Hfull. congruence.
      * split; [|done]. intros Himg. apply has_image_true in Himg.
        eapply Forall_forall in Hbasic; [|exact Hin]. simpl in Hbasic. congruence.
    + eapply Forall_impl; [exact Hfull|]. intros a. apply has_image_true.
    + eapply Forall_impl; [exact Hbasic|]. intros a. apply has_image_false.
  - intros st h titles m status body order Hh Hcur Hperm.
    destruct (attempt_commits st h titles m status body order Hh Hcur Hperm)
      as (st' & Hrun & Hres & _).
    by exists st', (classify (resolved status body (length titles)) m).
Qed.

Lemma classification_by_image_witness :
  summary_of (cat_body 0) ∈ fullArticles (classify (resolved cat_status cat_body 3) true) ∧
  ∃ st' r,
    run searching_cat
      (SearchReply 2 (SearchOk cat_titles true)
       :: fetch_replies 2 cat_status cat_body [2; 0; 1]%nat) = Some st' ∧
    results st' = Some r ∧
    r = classify (resolved cat_status cat_body 3) true ∧
    more r = true.
Proof.
  split.
  - apply (proj1 classification_by_image (resolved cat_status cat_body 3) true).
    + vm_compute. reflexivity.
    + exists "Cat.jpg"%string. split; [reflexivity|discriminate].
  - apply (proj2 classification_by_image searching_cat 2 cat_titles true
             cat_status cat_body [2; 0; 1]%nat).
    + vm_compute. reflexivity.
    + vm_compute. reflexivity.
    + simpl. apply (Permutation_cons_append [0; 1]%nat 2%nat).
Defined.

(** C6: when the search of an attempt returns [n] titles and some of the
    lookups answer with a failed status, each failed lookup gives [null]
    at its own position only; the attempt still commits, and what it
    commits are the successful summaries, each id once, with [count] the
    number of their ids: with distinct ids, all the successes and [n]
    minus the number of failures. *)
Theorem failed_lookups_isolated st h titles m status body order :
  h ∈ awaiting_search st → searchDebounce st = Some h →
  order ≡ₚ seq 0 (length titles) →
  let articles := resolved status body (length titles) in
  ∃ st' r,
    run st (SearchReply h (SearchOk titles m) :: fetch_replies h status body order)
    = Some st' ∧
    results st' = Some r ∧
    head (trace st') = Some (now st, Committed h r) ∧
    (∀ i, (i < length titles)%nat →
       articles !! i
       = Some (if failed_status (status i) then None else Some (summary_of (body i)))) ∧
    (∀ a, a ∈ fullArticles r ++ basicArticles r
          ↔ first_with_id (id a) articles = Some a) ∧
    count r = size (list_to_set (id <$> successes articles) : gset Z) ∧
    (NoDup (id <$> successes articles) →
       fullArticles r ++ basicArticles r ≡ₚ successes articles ∧
       (count r
        + length (List.filter (λ i, failed_status (status i)) (seq 0 (length titles)))
        = length titles)%nat).
Proof.
  intros Hh Hcur Hperm articles.
  destruct (attempt_commits st h titles m status body order Hh Hcur Hperm)
    as (st' & Hrun & Hres & Htr).
  fold articles in Hres, Htr.
  exists st', (classify articles m).
  split; [done|]. split; [done|]. split; [by rewrite Htr|].
  split; [|split; [|split]].
  - intros i Hi. unfold articles, resolved.
    change (map ?f ?l) with (f <$> l).
    rewrite list_lookup_fmap, lookup_seq_lt by done. done.
  - intros a. apply classify_kept.
  - apply classify_count_ids.
  - intros Hnd.
    assert (fullArticles (classify articles m) ++ basicArticles (classify articles m)
            ≡ₚ successes articles) as Hp.
    { apply NoDup_Permutation.
      - eapply NoDup_fmap_1. apply classify_nodup.
      - eapply NoDup_fmap_1. exact Hnd.
      - intros a. rewrite classify_kept. split.
        + intros Ha. apply first_with_id_Some in Ha as [_ Ha].
          apply list_elem_of_omap. by exists (Some a).
        + intros Ha. apply list_elem_of_omap in Ha as (x & Hx & ->).
          by apply first_with_id_distinct. }
    split; [done|].
    change (count (classify articles m))
      with (length (fullArticles (classify articles m))
            + length (basicArticles (classify articles m)))%nat.
    rewrite <- length_app, Hp.
    pose proof (successes_failed status body (seq 0 (length titles))) as Hsf.
    rewrite length_seq in Hsf. exact Hsf.
Qed.

Lemma failed_lookups_isolated_witness :
  ∃ st' r,
    run searching_cat
      (SearchReply 2 (SearchOk cat_titles true)
       :: fetch_replies 2 cat_status cat_body [2; 0; 1]%nat) = Some st' ∧
    results st' = Some r ∧
    title <$> fullArticles r = ["Cat"%string] ∧
    title <$> basicArticles r = ["Kitten"%string] ∧
    count r = 2%nat.
Proof.
  destruct (failed_lookups_isolated searching_cat 2 cat_titles true
              cat_status cat_body [2; 0; 1]%nat) as (st' & r & Hrun & Hres & _).
  - vm_compute. reflexivity.
  - vm_compute. reflexivity.
  - simpl. apply (Permutation_cons_append [0; 1]%nat 2%nat).
  - exists st', r. split; [exact Hrun|]. split; [exact Hres|].
    assert (run searching_cat
              (SearchReply 2 (SearchOk cat_titles true)
               :: fetch_replies 2 cat_status cat_body [2; 0; 1]%nat)
            = Some st' → results st' = Some r →
            title <$> fullArticles r = ["Cat"%string] ∧
            title <$> basicArticles r = ["Kitten"%string] ∧ count r = 2%nat) as Hval.
    { vm_compute. intros [= <-] [= <-]. repeat split. }
    exact (Hval Hrun Hres).
Defined.

(** An attempt taken off the search, with nothing else done, is spent. *)
Lemma spent_after_search st h :
  well_staged st → h ∈ awaiting_search st →
  spent h (set_awaiting_search (awaiting_search st ∖ {[h]}) st).
Proof.
  intros W Hh. destruct (staged_search _ W h Hh) as (Hlt & Ht & Ha).
  unfold spent; simpl. repeat split; try done. set_solver.
Qed.

(** C10: when the search of an attempt returns and [searchDebounce.current]
    is no longer the attempt's handle, the callback returns at once: the
    state is left as it was (no result is set, no lookup is issued, the
    trace gets no entry), and the attempt never does anything again. *)
Theorem superseded_attempt_stops evs0 st h titles m :
  run init evs0 = Some st →
  h ∈ awaiting_search st → searchDebounce st ≠ Some h →
  ∃ st',
    step st (SearchReply h (SearchOk titles m)) = Some st' ∧
    st' = set_awaiting_search (awaiting_search st ∖ {[h]}) st ∧
    results st' = results st ∧ query st' = query st ∧
    searchDebounce st' = searchDebounce st ∧ timers st' = timers st ∧
    awaiting_articles st' = awaiting_articles st ∧ trace st' = trace st ∧
    ∀ evs st'', run st' evs = Some st'' →
      ∃ new, trace st'' = new ++ trace st ∧ silent h new.
Proof.
  intros Hreach Hh Hcur.
  pose proof (well_staged_run _ _ _ well_staged_init Hreach) as W.
  exists (set_awaiting_search (awaiting_search st ∖ {[h]}) st).
  split.
  { simpl. unfold resume_search. rewrite bool_decide_eq_true_2 by done.
    rewrite bool_decide_eq_true_2; [done|]. simpl. congruence. }
  repeat split.
  intros evs st'' Hrun.
  destruct (spent_run h evs _ _ (spent_after_search st h W Hh) Hrun)
    as (_ & new & Htr & Hsil).
  by exists new.
Qed.

Lemma superseded_attempt_stops_witness :
  ∃ st',
    step superseded_cat (SearchReply 2 (SearchOk cat_titles true)) = Some st' ∧
    results st' = None ∧ trace st' = trace superseded_cat.
Proof.
  destruct (superseded_attempt_stops cat_superseded superseded_cat 2 cat_titles true)
    as (st' & Hstep & _ & Hr & _ & _ & _ & _ & Htr & _).
  - vm_compute. reflexivity.
  - vm_compute. reflexivity.
  - vm_compute. discriminate.
  - exists st'. repeat split; [done| |done]. rewrite Hr. vm_compute. reflexivity.
Defined.

(** C7: when the search of an attempt fails, the callback ends there: the
    state is left as it was, nothing is committed, and the attempt never
    does anything again.  Results that were undefined stay undefined: they
    are undefined after the failure whenever no attempt has committed
    since the last submission cleared them, as when a submission is
    followed by the firing of its timer and the failure of its search. *)
Theorem failed_search_commits_nothing :
  (∀ evs0 st h,
     run init evs0 = Some st → h ∈ awaiting_search st →
     ∃ st',
       step st (SearchReply h SearchFailed) = Some st' ∧
       st' = set_awaiting_search (awaiting_search st ∖ {[h]}) st ∧
       results st' = results st ∧ query st' = query st ∧
       searchDebounce st' = searchDebounce st ∧ timers st' = timers st ∧
       awaiting_articles st' = awaiting_articles st ∧ trace st' = trace st ∧
       (∀ new t tr, trace st = new ++ (t, Cleared) :: tr →
          Forall (λ ta, is_commit ta.2 = false) new → results st' = None) ∧
       ∀ evs st'', run st' evs = Some st'' →
         ∃ new, trace st'' = new ++ trace st ∧ silent h new) ∧
  (∀ st q dt,
     QUIET ≤ dt →
     ∃ st',
       run st [Submit q; Elapse dt; Fire (next_handle st);
               SearchReply (next_handle st) SearchFailed] = Some st' ∧
       results st' = None).
Proof.
  split.
  - intros evs0 st h Hreach Hh.
    pose proof (well_staged_run _ _ _ well_staged_init Hreach) as W.
    pose proof (shown_run _ _ _ (eq_refl : results init = shown (trace init)) Hreach)
      as Hshown.
    exists (set_awaiting_search (awaiting_search st ∖ {[h]}) st).
    split.
    { simpl. unfold resume_search. by rewrite bool_decide_eq_true_2. }
    repeat split.
    + intros new t tr Htr Hnew. simpl. rewrite Hshown, Htr. by apply shown_cleared.
    + intros evs st'' Hrun.
      destruct (spent_run h evs _ _ (spent_after_search st h W Hh) Hrun)
        as (_ & new & Htr & Hsil).
      by exists new.
  - intros st q dt Hdt. simpl. unfold fire. simpl.
    rewrite lookup_insert_eq. simpl.
    destruct (now st + QUIET <=? now st + dt) eqn:Hle.
    2:{ apply N.leb_gt in Hle. lia. }
    simpl. unfold resume_search. simpl.
    rewrite bool_decide_eq_true_2 by set_solver.
    by eexists.
Qed.

Lemma failed_search_commits_nothing_witness :
  (∃ st',
     step searching_cat (SearchReply 2 SearchFailed) = Some st' ∧
     results st' = None ∧ trace st' = trace searching_cat) ∧
  (∃ st',
     run init [Submit []; Elapse 250; Fire 1; SearchReply 1 SearchFailed] = Some st' ∧
     results st' = None).
Proof.
  split.
  - destruct (proj1 failed_search_commits_nothing cat_typed searching_cat 2)
      as (st' & Hstep & _ & _ & _ & _ & _ & _ & Htr & Hnone & _).
    + vm_compute. reflexivity.
    + vm_compute. reflexivity.
    + exists st'. repeat split; [done| |done].
      apply (Hnone [(350, Searched 2 [str "cat"]); (100, Scheduled 2)] 100
               [(0, Scheduled 1); (0, Cleared)]).
      * vm_compute. reflexivity.
      * by repeat constructor.
  - apply (proj2 failed_search_commits_nothing init [] 250).
    vm_compute. discriminate.
Defined.

(** C7 as it is worded does not hold of every failed search: an attempt
    whose search fails leaves the results alone, also those a later
    attempt has committed in the meantime.  Here the search for "cat" is
    still out when the attempt for "cats", the current one, commits its
    result; the search for "cat" then fails and the result stays. *)
Lemma failed_search_results_defined :
  ¬ (∀ evs st h st',
       run init evs = Some st → h ∈ awaiting_search st →
       step st (SearchReply h SearchFailed) = Some st' → results st' = None).
Proof.
  intros H.
  assert (run init cats_first = Some cats_shown) as H1 by (vm_compute; reflexivity).
  assert (2 ∈ awaiting_search cats_shown) as H2 by (vm_compute; reflexivity).
  assert (step cats_shown (SearchReply 2 SearchFailed)
          = Some (set_awaiting_search (awaiting_search cats_shown ∖ {[2]}) cats_shown))
    as H3 by (vm_compute; reflexivity).
  specialize (H _ _ _ _ H1 H2 H3). vm_compute in H. discriminate.
Qed.

(** C9: a query without any letter or digit has no terms, and the effect
    does not special-case it: it schedules the timer as for any query,
    and when the timer fires after the quiet interval [client.search] is
    called with an empty list of required terms. *)
Theorem empty_query_still_searches :
  (∀ q, Forall (λ c, is_alnum c = false) q → tokenize q = []) ∧
  (∀ st q dt,
     tokenize q = [] → QUIET ≤ dt →
     ∃ st',
       run st [Submit q; Elapse dt; Fire (next_handle st)] = Some st' ∧
       next_handle st ∈ awaiting_search st' ∧
       trace st'
       = (now st + dt, Searched (next_handle st) [])
         :: (now st, Scheduled (next_handle st)) :: (now st, Cleared) :: trace st).
Proof.
  split.
  - intros q Hq. unfold tokenize.
    by rewrite (Fragments_split q [] (Fragments_end q Hq)).
  - intros st q dt Hq Hdt. simpl. unfold fire. simpl.
    rewrite lookup_insert_eq. simpl.
    destruct (now st + QUIET <=? now st + dt) eqn:Hle.
    2:{ apply N.leb_gt in Hle. lia. }
    eexists. split; [done|]. simpl. rewrite Hq. split; [set_solver|done].
Qed.

Lemma empty_query_still_searches_witness :
  tokenize (str "  ") = [] ∧
  ∃ st',
    run init [Submit []; Elapse 250; Fire 1] = Some st' ∧
    trace st' = [(250, Searched 1 []); (0, Scheduled 1); (0, Cleared)].
Proof.
  split.
  - apply (proj1 empty_query_still_searches). by repeat constructor.
  - destruct (proj2 empty_query_still_searches init [] 250) as (st' & Hrun & _ & Htr).
    + reflexivity.
    + vm_compute. discriminate.
    + exists st'. split; [exact Hrun|exact Htr].
Defined.

(** C4: in a burst of submissions, each less than the quiet interval
    after the one before, every submission cancels the timer of the
    previous one, so that after the last submission only its own timer is
    scheduled, due one quiet interval (250) later; from the first
    submission of the burst up to the next submission after it at most
    one search is started, that of the last submission, and not before
    its timer is due. *)
Theorem debounce_burst evs0 st b q tail st' :
  run init evs0 = Some st →
  quiet b → Forall (λ e, is_submit e = false) tail →
  run st (burst b ++ Submit q :: tail) = Some st' →
  ∃ st_q new,
    run st (burst b) = Some st_q ∧
    timers (effect q st_q)
    = {[ next_handle st_q := {| deadline := now st_q + 250; terms := tokenize q |} ]} ∧
    trace st' = new ++ trace st ∧
    (searches new = [] ∨
     ∃ t, searches new = [(t, next_handle st_q, tokenize q)] ∧ now st_q + 250 ≤ t).
Proof.
  intros Hreach Hq Htail Hrun.
  pose proof (at_most_current_run _ _ _ at_most_current_init Hreach) as Hw.
  destruct (burst_fires_once b st q tail st' Hw Hq Htail Hrun)
    as (st_q & new & Hrunq & Hwq & Htr & Hcase).
  exists st_q, new. split; [done|]. split; [|done].
  by apply effect_timers.
Qed.

Lemma debounce_burst_witness :
  searches (trace debounced) = [(350, 2, [str "c"])] ∧
  ∃ st_q new,
    run init (burst mounted) = Some st_q ∧
    timers (effect (str "c") st_q)
    = {[ next_handle st_q
         := {| deadline := now st_q + 250; terms := tokenize (str "c") |} ]} ∧
    trace debounced = new ++ trace init ∧
    (searches new = [] ∨
     ∃ t, searches new = [(t, next_handle st_q, tokenize (str "c"))] ∧
          now st_q + 250 ≤ t).
Proof.
  split; [vm_compute; reflexivity|].
  apply (debounce_burst [] init mounted (str "c") [Elapse 250; Fire 2] debounced).
  - reflexivity.
  - repeat constructor.
  - repeat constructor.
  - vm_compute. reflexivity.
Defined.

(** C1, where the hook departs from it: the handle is compared with
    [searchDebounce.current] only when the search returns (line 38), not
    when the lookups have settled.  An attempt superseded while its
    lookups are outstanding still calls [setResults]: here attempt 2,
    superseded by attempt 3 at t = 390, commits the results for "cat" at
    t = 420, when the query is "cats" and attempt 3 is the current one. *)
Theorem stale_attempt_commits :
  run init stale_commit = Some stale_state ∧
  query stale_state = str "cats" ∧
  searchDebounce stale_state = Some 3 ∧
  (390, Scheduled 3) ∈ trace stale_state ∧
  ∃ r, results stale_state = Some r ∧
       title <$> fullArticles r = ["Cat"%string] ∧
       head (trace stale_state) = Some (420, Committed 2 r).
Proof.
  split; [vm_compute; reflexivity|].
  split; [vm_compute; reflexivity|].
  split; [vm_compute; reflexivity|].
  split.
  - apply list_elem_of_In. vm_compute. tauto.
  - vm_compute. eexists. repeat split.
Qed.

(** C8, where the hook departs from it: the effect does clear [results]
    at once, whatever the state, but [results] is not undefined whenever
    an attempt is pending: after the late commit of the superseded
    attempt 2, [results] holds the results for "cat" while attempt 3 is
    still scheduled. *)
Theorem results_shown_while_pending :
  (∀ q st, results (effect q st) = None) ∧
  run init stale_commit = Some stale_state ∧
  pending stale_state = true ∧
  is_Some (timers stale_state !! 3) ∧
  is_Some (results stale_state).
Proof.
  split; [done|].
  split; [vm_compute; reflexivity|].
  split; [vm_compute; reflexivity|].
  split; vm_compute; by eexists.
Qed.

End Claims.

(** * Further properties of the tokenizer *)

Section TokenizerMore.

Lemma concat_split_from s : ∀ b frag,
  concat (split_from b frag s) = frag ++ List.filter is_alnum s.
Proof.
  induction s as [|c s IH]; intros b frag; simpl.
  - by rewrite app_nil_r.
  - destruct (is_alnum c).
    + rewrite IH. by rewrite <- app_assoc.
    + destruct b; simpl; by rewrite IH.
Qed.

Lemma concat_truthy (l : list jsstring) : concat (List.filter truthy l) = concat l.
Proof.
  induction l as [|t l IH]; simpl; [done|].
  destruct t; simpl; by rewrite IH.
Qed.

Lemma concat_toLowerCase (l : list jsstring) :
  concat (map toLowerCase l) = map lower (concat l).
Proof.
  induction l as [|t l IH]; simpl; [done|].
  by rewrite IH, map_app.
Qed.

(** X1: the letters and digits of the query, lowercased and in order, are
    what the terms are made of: none is lost, none moved, nothing added. *)
Theorem tokenize_concat (q : jsstring) :
  concat (tokenize q) = map lower (List.filter is_alnum q).
Proof.
  unfold tokenize, split.
  by rewrite concat_toLowerCase, concat_truthy, concat_split_from.
Qed.

Lemma is_alnum_lower c : is_alnum (lower c) = is_alnum c.
Proof.
  unfold lower. destruct ((65 <=? c) && (c <=? 90)) eqn:Hup; [|done].
  apply andb_true_iff in Hup as [H1 H2].
  apply N.leb_le in H1, H2. unfold is_alnum.
  assert ((97 <=? c + 32) = true) as -> by (apply N.leb_le; lia).
  assert ((c + 32 <=? 122) = true) as -> by (apply N.leb_le; lia).
  assert ((65 <=? c) = true) as -> by (apply N.leb_le; lia).
  assert ((c <=? 90) = true) as -> by (apply N.leb_le; lia).
  simpl. by rewrite orb_true_r.
Qed.

Lemma truthy_toLowerCase t : truthy (toLowerCase t) = truthy t.
Proof. by destruct t. Qed.

Lemma filter_truthy_toLowerCase (l : list jsstring) :
  List.filter truthy (map toLowerCase l) = map toLowerCase (List.filter truthy l).
Proof.
  induction l as [|t l IH]; simpl; [done|].
  rewrite truthy_toLowerCase. destruct (truthy t); simpl; by rewrite IH.
Qed.

Lemma split_from_same_case s1 : ∀ s2 b frag1 frag2,
  Forall2 (λ a c, lower a = lower c) s1 s2 →
  toLowerCase frag1 = toLowerCase frag2 →
  map toLowerCase (split_from b frag1 s1) = map toLowerCase (split_from b frag2 s2).
Proof.
  induction s1 as [|a s1 IH]; intros s2 b frag1 frag2 Hs Hfrag;
    inversion Hs as [|? c ? s2' Hac Hs']; subst; simpl.
  - by rewrite Hfrag.
  - assert (is_alnum a = is_alnum c) as Hcls.
    { by rewrite <- (is_alnum_lower a), <- (is_alnum_lower c), Hac. }
    rewrite <- Hcls. destruct (is_alnum a).
    + apply IH; [done|]. unfold toLowerCase in *. rewrite !map_app. simpl.
      by rewrite Hfrag, Hac.
    + destruct b; simpl.
      * by apply IH.
      * rewrite Hfrag. f_equal. by apply IH.
Qed.

(** X2: two queries that differ only in the case of ASCII letters have the
    same terms. *)
Theorem tokenize_case_insensitive (q1 q2 : jsstring) :
  Forall2 (λ a c, lower a = lower c) q1 q2 → tokenize q1 = tokenize q2.
Proof.
  intros Hq. unfold tokenize, split.
  rewrite <- !filter_truthy_toLowerCase.
  by rewrite (split_from_same_case q1 q2 false [] []).
Qed.

Lemma tokenize_case_insensitive_witness :
  tokenize (str "Big CATS") = tokenize (str "bIG cats").
Proof.
  apply tokenize_case_insensitive. vm_compute. by repeat constructor.
Defined.

Lemma words_app_sep q1 : ∀ q2 c b frag,
  is_alnum c = false → (b = true → frag = []) →
  List.filter truthy (split_from b frag (q1 ++ c :: q2))
  = List.filter truthy (split_from b frag q1)
    ++ List.filter truthy (split_from true [] q2).
Proof.
  induction q1 as [|a q1 IH]; intros q2 c b frag Hc Hb; simpl.
  - rewrite Hc. destruct b; simpl.
    + by rewrite (Hb eq_refl).
    + by destruct frag.
  - destruct (is_alnum a).
    + by apply IH.
    + destruct b.
      * by apply IH.
      * simpl. destruct (truthy frag); simpl; by rewrite IH.
Qed.

(** X3: a separator cuts the query in two parts that are tokenized
    independently. *)
Theorem tokenize_app_sep (q1 q2 : jsstring) (c : N) :
  is_alnum c = false → tokenize (q1 ++ c :: q2) = tokenize q1 ++ tokenize q2.
Proof.
  intros Hc. unfold tokenize, split.
  rewrite (words_app_sep q1 q2 c false []) by done.
  by rewrite map_app, <- (words_in_sep q2).
Qed.

Lemma tokenize_app_sep_witness :
  tokenize (str "big-cat" ++ 32 :: str "Zoo 9") = tokenize (str "big-cat") ++ tokenize (str "Zoo 9").
Proof. by apply tokenize_app_sep. Defined.

Lemma toLowerCase_fixed t :
  Forall (λ c, is_lower_alnum c = true) t → toLowerCase t = t.
Proof.
  unfold toLowerCase. induction 1 as [|c t Hc _ IH]; simpl; [done|].
  rewrite IH. f_equal. unfold lower, is_lower_alnum in *.
  destruct ((65 <=? c) && (c <=? 90)) eqn:Hup; [|done].
  apply andb_true_iff in Hup as [H1 H2]. apply N.leb_le in H1, H2.
  apply orb_true_iff in Hc as [Hc|Hc]; apply andb_true_iff in Hc as [H3 H4];
    apply N.leb_le in H3, H4; lia.
Qed.

Lemma is_lower_alnum_alnum c : is_lower_alnum c = true → is_alnum c = true.
Proof.
  unfold is_lower_alnum, is_alnum. intros H.
  apply orb_true_iff in H as [->| ->]; [done|]. by rewrite orb_true_r.
Qed.

(** X4: tokenizing is idempotent on its output: every term of a query is a
    query whose only term is itself. *)
Theorem tokenize_terms_fixed (q : jsstring) :
  Forall (λ t, tokenize t = [t]) (tokenize q).
Proof.
  destruct (Fragments_total q) as [ws Hws].
  unfold tokenize at 2. rewrite (Fragments_split _ _ Hws).
  apply Forall_map. eapply Forall_impl; [exact (Fragments_words _ _ Hws)|].
  intros w [Hne Hw]. simpl.
  assert (Forall (λ c, is_lower_alnum c = true) (toLowerCase w)) as Hlow.
  { unfold toLowerCase. apply Forall_map.
    eapply Forall_impl; [exact Hw|]. intros c. apply lower_alnum. }
  assert (Fragments (toLowerCase w) [toLowerCase w]) as Hfr.
  { rewrite <- (app_nil_r (toLowerCase w)) at 1.
    apply (Fragments_word [] (toLowerCase w) [] []); try done.
    - by destruct w.
    - eapply Forall_impl; [exact Hlow|]. intros c. apply is_lower_alnum_alnum.
    - by constructor. }
  unfold tokenize. rewrite (Fragments_split _ _ Hfr). simpl.
  by rewrite (toLowerCase_fixed _ Hlow).
Qed.

End TokenizerMore.

(** * Further properties of the classifier *)

Section ClassifierMore.

Implicit Types (a : WikipediaPageSummary) (b : Buckets).
Implicit Types (l k articles : list (option WikipediaPageSummary)).

Lemma visit_sublists b x (kept : list WikipediaPageSummary) :
  full b `sublist_of` kept → basic b `sublist_of` kept →
  full (visit b x) `sublist_of` kept ++ successes [x] ∧
  basic (visit b x) `sublist_of` kept ++ successes [x].
Proof.
  intros Hf Hb. destruct x as [a|]; simpl.
  - case_bool_decide; [|destruct (has_image a)]; simpl; split;
      try (by apply sublist_inserts_r); by apply sublist_app.
  - rewrite app_nil_r. done.
Qed.

Lemma foldl_visit_sublists l :
  full (foldl visit no_buckets l) `sublist_of` successes l ∧
  basic (foldl visit no_buckets l) `sublist_of` successes l.
Proof.
  induction l as [|x l [IHf IHb]] using rev_ind; [done|].
  rewrite foldl_snoc. unfold successes. rewrite omap_app.
  by apply visit_sublists.
Qed.

Lemma successes_length l : (length (successes l) ≤ length l)%nat.
Proof.
  unfold successes. induction l as [|[a|] l IH]; csimpl; lia.
Qed.

(** X5: within each of the two sequences the summaries keep the order of the
    index: each sequence is the successful lookups, in order, with some
    left out.  So neither sequence is longer than the list of titles. *)
Theorem classify_keeps_order articles m :
  fullArticles (classify articles m) `sublist_of` successes articles ∧
  basicArticles (classify articles m) `sublist_of` successes articles ∧
  (length (fullArticles (classify articles m)) ≤ length articles)%nat ∧
  (length (basicArticles (classify articles m)) ≤ length articles)%nat.
Proof.
  destruct (foldl_visit_sublists articles) as [Hf Hb].
  pose proof (successes_length articles).
  split; [done|]. split; [done|].
  apply sublist_length in Hf, Hb. simpl. lia.
Qed.

Lemma visit_extends b x :
  full b `prefix_of` full (visit b x) ∧ basic b `prefix_of` basic (visit b x).
Proof.
  destruct x as [a|]; simpl; [|done].
  case_bool_decide; [done|].
  destruct (has_image a); simpl; split; try done; by apply prefix_app_r.
Qed.

Lemma foldl_visit_extends k : ∀ b,
  full b `prefix_of` full (foldl visit b k) ∧
  basic b `prefix_of` basic (foldl visit b k).
Proof.
  induction k as [|x k IH]; intros b; simpl; [done|].
  destruct (visit_extends b x) as [Hf Hb].
  destruct (IH (visit b x)) as [Hf' Hb'].
  split; by etrans.
Qed.

(** X6: first come, first kept: what the classifier makes of the first
    articles is not changed by the articles that follow, which can only
    add summaries at the end of either sequence. *)
Theorem classify_extends l k m :
  fullArticles (classify l m) `prefix_of` fullArticles (classify (l ++ k) m) ∧
  basicArticles (classify l m) `prefix_of` basicArticles (classify (l ++ k) m).
Proof.
  simpl. rewrite foldl_app. apply foldl_visit_extends.
Qed.

Lemma foldl_visit_nulls l : ∀ b,
  foldl visit b l = foldl visit b (Some <$> successes l).
Proof.
  unfold successes. induction l as [|[a|] l IH]; intros b; csimpl; [done| |].
  - apply IH.
  - apply IH.
Qed.

(** X7: failed lookups leave no mark: the result is the one the successful
    lookups alone would give. *)
Theorem classify_ignores_failures articles m :
  classify articles m = classify (Some <$> successes articles) m.
Proof.
  unfold classify. by rewrite <- foldl_visit_nulls.
Qed.

Lemma foldl_visit_all_null l b :
  Forall (λ x, x = None) l → foldl visit b l = b.
Proof.
  revert b. induction l as [|x l IH]; intros b Hl; simpl; [done|].
  inversion Hl as [|? ? -> Hl']; subst. by apply IH.
Qed.

End ClassifierMore.

(** * Further properties of the hook *)

Section MachineMore.

Implicit Types (st : State) (e : Event) (evs : list Event) (h : N).

Lemma resolved_all_failed status body n :
  (∀ i, (i < n)%nat → failed_status (status i) = true) →
  Forall (λ x, x = None) (resolved status body n).
Proof.
  intros Hall. unfold resolved. apply Forall_map, Forall_forall.
  intros i Hi. apply elem_of_seq in Hi. simpl.
  unfold article_of. rewrite Hall; [done|lia].
Qed.

(** X8: when every lookup of a current attempt answers with a failed status,
    and also when the search returns no title at all, the attempt commits
    an empty result: both sequences empty, [count] 0, [more] as in the
    search response.  The hook then shows "nothing found", not "pending". *)
Theorem all_failed_commits_empty st h titles m status body order :
  h ∈ awaiting_search st → searchDebounce st = Some h →
  order ≡ₚ seq 0 (length titles) →
  (∀ i, (i < length titles)%nat → failed_status (status i) = true) →
  ∃ st',
    run st (SearchReply h (SearchOk titles m) :: fetch_replies h status body order)
    = Some st' ∧
    results st'
    = Some {| fullArticles := []; basicArticles := []; count := 0; more := m |}.
Proof.
  intros Hh Hcur Hperm Hall.
  destruct (attempt_commits st h titles m status body order Hh Hcur Hperm)
    as (st' & Hrun & Hres & _).
  exists st'. split; [done|]. rewrite Hres. unfold classify.
  by rewrite (foldl_visit_all_null _ _ (resolved_all_failed status body _ Hall)).
Qed.

Lemma all_failed_commits_empty_witness :
  ∃ st',
    run searching_cat
      (SearchReply 2 (SearchOk cat_titles false)
       :: fetch_replies 2 all_down cat_body [1; 2; 0]%nat) = Some st' ∧
    results st'
    = Some {| fullArticles := []; basicArticles := []; count := 0; more := false |}.
Proof.
  apply (all_failed_commits_empty searching_cat 2 cat_titles false all_down cat_body
           [1; 2; 0]%nat).
  - vm_compute. reflexivity.
  - vm_compute. reflexivity.
  - simpl. symmetry. apply (Permutation_cons_append [1; 2]%nat 0%nat).
  - intros i _. reflexivity.
Defined.

Lemma staged_in_articles st h :
  well_staged st → is_Some (awaiting_articles st !! h) →
  h < next_handle st ∧ timers st !! h = None ∧ h ∉ awaiting_search st.
Proof.
  intros [W1 W2 W3] [fo Hfo]. repeat split.
  - apply W3. by eexists.
  - destruct (timers st !! h) eqn:E; [|done].
    destruct (W1 h (mk_is_Some _ _ E)). congruence.
  - intros Hin. destruct (W2 h Hin) as (_ & _ & ?). congruence.
Qed.

(** X9: a lookup that is rejected (the network fails, or the body is not the
    JSON expected) rejects [Promise.all], unlike a lookup that answers
    with a failed status: the attempt ends without a call of
    [setResults], whatever its other lookups answer later. *)
Theorem rejected_lookup_aborts evs0 st h fo idx :
  run init evs0 = Some st →
  awaiting_articles st !! h = Some fo → fo_slots fo !! idx = Some None →
  ∃ st',
    step st (FetchReply h idx FetchRejected) = Some st' ∧
    results st' = results st ∧ query st' = query st ∧
    searchDebounce st' = searchDebounce st ∧ trace st' = trace st ∧
    ∀ evs st'', run st' evs = Some st'' →
      ∃ new, trace st'' = new ++ trace st ∧ silent h new.
Proof.
  intros Hreach Hfo Hslot.
  pose proof (well_staged_run _ _ _ well_staged_init Hreach) as W.
  destruct (staged_in_articles st h W (mk_is_Some _ _ Hfo)) as (Hlt & Ht & Hs).
  exists (set_awaiting_articles (delete h (awaiting_articles st)) st).
  split.
  { simpl. unfold resume_fetch. by rewrite Hfo, Hslot. }
  repeat split.
  intros evs st'' Hrun.
  assert (spent h (set_awaiting_articles (delete h (awaiting_articles st)) st)) as Hsp.
  { unfold spent; simpl. repeat split; try done. by rewrite lookup_delete_eq. }
  destruct (spent_run h evs _ _ Hsp Hrun) as (_ & new & Htr & Hsil).
  by exists new.
Qed.

Lemma rejected_lookup_aborts_witness :
  ∃ st',
    step fetching_cat (FetchReply 2 1 FetchRejected) = Some st' ∧
    results st' = None ∧ trace st' = trace fetching_cat.
Proof.
  destruct (rejected_lookup_aborts cat_found fetching_cat 2
              {| fo_more := true; fo_slots := [None; None; None] |} 1%nat)
    as (st' & Hstep & Hres & _ & _ & Htr & _).
  - vm_compute. reflexivity.
  - vm_compute. reflexivity.
  - reflexivity.
  - exists st'. split; [exact Hstep|]. split; [|exact Htr].
    rewrite Hres. vm_compute. reflexivity.
Defined.

(** X10: the order in which the lookups answer does not matter: whatever it
    is, the attempt ends in the same state, with the same result. *)
Theorem arrival_order_irrelevant st h titles m status body order1 order2 :
  h ∈ awaiting_search st → searchDebounce st = Some h →
  order1 ≡ₚ seq 0 (length titles) → order2 ≡ₚ seq 0 (length titles) →
  ∃ st',
    run st (SearchReply h (SearchOk titles m) :: fetch_replies h status body order1)
    = Some st' ∧
    run st (SearchReply h (SearchOk titles m) :: fetch_replies h status body order2)
    = Some st' ∧
    results st' = Some (classify (resolved status body (length titles)) m).
Proof.
  intros Hh Hcur Hperm1 Hperm2. simpl. unfold resume_search.
  rewrite bool_decide_eq_true_2 by done. simpl.
  rewrite bool_decide_eq_false_2 by (rewrite Hcur; naive_solver).
  set (st1 := fetch_all h titles (set_awaiting_search (awaiting_search st ∖ {[h]}) st)).
  clearbody st1.
  destruct titles as [|t titles].
  - apply Permutation_nil_r in Hperm1 as ->. apply Permutation_nil_r in Hperm2 as ->.
    simpl. eexists. split; [done|]. split; [done|]. unfold settle. simpl. done.
  - set (fo := {| fo_more := m; fo_slots := map (λ _, None) (t :: titles) |}).
    assert (∀ order, order ≡ₚ seq 0 (length (t :: titles)) →
              run (settle h fo st1) (fetch_replies h status body order)
              = Some (commit h (resolved status body (length (t :: titles))) m
                        (set_awaiting_articles (delete h (awaiting_articles st1)) st1)))
      as Hany.
    { intros order Hperm. unfold settle. unfold fo at 1. cbn [fo_slots all_settled map].
      rewrite (fanout_run h status body order _ fo).
      - unfold fo. cbn [fo_slots fo_more set_awaiting_articles awaiting_articles].
        by rewrite length_map, delete_insert_eq.
      - simpl. by rewrite lookup_insert_eq.
      - rewrite Hperm. apply NoDup_seq.
      - intros ->. by apply Permutation_nil_l in Hperm.
      - intros i. rewrite Hperm, elem_of_seq. unfold fo. cbn [fo_slots].
        rewrite lookup_map_const. lia.
      - intros i Hi Hni. exfalso. apply Hni. rewrite Hperm, elem_of_seq.
        unfold fo in Hi. cbn [fo_slots] in Hi. rewrite length_map in Hi. lia. }
    eexists. split; [by apply Hany|]. split; [by apply Hany|]. done.
Qed.

Lemma arrival_order_irrelevant_witness :
  run searching_cat
    (SearchReply 2 (SearchOk cat_titles true)
     :: fetch_replies 2 cat_status cat_body [2; 0; 1]%nat)
  = run searching_cat
      (SearchReply 2 (SearchOk cat_titles true)
       :: fetch_replies 2 cat_status cat_body [1; 2; 0]%nat).
Proof.
  destruct (arrival_order_irrelevant searching_cat 2 cat_titles true cat_status cat_body
              [2; 0; 1]%nat [1; 2; 0]%nat) as (st' & H1 & H2 & _).
  - vm_compute. reflexivity.
  - vm_compute. reflexivity.
  - simpl. apply (Permutation_cons_append [0; 1]%nat 2%nat).
  - simpl. symmetry. apply (Permutation_cons_append [1; 2]%nat 0%nat).
  - by rewrite H1, H2.
Defined.

(** X11: at any time at most one timer is scheduled, and it is the one whose
    handle [searchDebounce.current] holds. *)
Theorem one_timer_scheduled evs st :
  run init evs = Some st →
  timers st = ∅ ∨
  ∃ h tm, timers st = {[ h := tm ]} ∧ searchDebounce st = Some h.
Proof.
  intros Hreach.
  pose proof (at_most_current_run _ _ _ at_most_current_init Hreach) as Hw.
  destruct (searchDebounce st) as [c|] eqn:Hcur.
  - destruct (timers st !! c) as [tm|] eqn:Hc.
    + right. exists c, tm. split; [|done]. apply map_eq. intros h.
      destruct (decide (h = c)) as [->|Hne].
      * by rewrite lookup_singleton_eq.
      * rewrite lookup_singleton_ne by done.
        destruct (timers st !! h) eqn:E; [|done].
        specialize (Hw h (mk_is_Some _ _ E)). congruence.
    + left. apply map_eq. intros h. rewrite lookup_empty.
      destruct (timers st !! h) eqn:E; [|done].
      specialize (Hw h (mk_is_Some _ _ E)). congruence.
  - left. apply map_eq. intros h. rewrite lookup_empty.
    destruct (timers st !! h) eqn:E; [|done].
    specialize (Hw h (mk_is_Some _ _ E)). congruence.
Qed.

Lemma one_timer_scheduled_witness :
  timers scheduled_cat = ∅ ∨
  ∃ h tm, timers scheduled_cat = {[ h := tm ]} ∧ searchDebounce scheduled_cat = Some h.
Proof.
  apply (one_timer_scheduled cat_scheduled). vm_compute. reflexivity.
Defined.

(** X12: a submission silences the attempt whose timer it cancels: that
    attempt never calls the index, never looks anything up and never sets
    a result. *)
Theorem cancelled_attempt_silent evs0 st h q evs st' :
  run init evs0 = Some st → is_Some (timers st !! h) →
  run st (Submit q :: evs) = Some st' →
  ∃ new, trace st' = new ++ trace st ∧ silent h new.
Proof.
  intros Hreach Hh Hrun.
  pose proof (well_staged_run _ _ _ well_staged_init Hreach) as W.
  pose proof (at_most_current_run _ _ _ at_most_current_init Hreach) as Hw.
  destruct (staged_timer _ W h Hh) as [Hlt Ha].
  assert (h ∉ awaiting_search st) as Hs.
  { intros Hin. destruct (staged_search _ W h Hin) as (_ & Hnone & _).
    destruct Hh as [tm Htm]. congruence. }
  assert (spent h (effect q st)) as Hsp.
  { unfold spent. rewrite effect_timers by done. simpl.
    repeat split; try done; [lia|]. rewrite lookup_singleton_ne; [done|lia]. }
  simpl in Hrun.
  destruct (spent_run h evs _ _ Hsp Hrun) as (_ & new & Htr & Hsil).
  exists (new ++ [(now st, Scheduled (next_handle st)); (now st, Cleared)]).
  split.
  - rewrite Htr. simpl. by rewrite <- app_assoc.
  - apply silent_app; [done|]. repeat constructor; simpl; [|done].
    intros [= ?]. lia.
Qed.

Lemma cancelled_attempt_silent_witness :
  ∃ new, trace due_cat = new ++ trace just_mounted ∧ silent 1 new.
Proof.
  apply (cancelled_attempt_silent [Submit []; Elapse 100] just_mounted 1 (str "cat")
           [Elapse 250] due_cat).
  - vm_compute. reflexivity.
  - vm_compute. by eexists.
  - vm_compute. reflexivity.
Defined.

Lemma step_query st e st' :
  is_submit e = false → step st e = Some st' → query st' = query st.
Proof.
  intros Hns Hstep.
  destruct e as [q|dt|h|h r|h idx o]; simpl in Hstep; [done|..].
  - by simplify_eq.
  - unfold fire in Hstep. repeat case_match; by simplify_eq.
  - unfold resume_search in Hstep. repeat case_match; simplify_eq; try done.
    match goal with |- context [settle _ ?fo ?s] =>
      destruct (settle_cases h fo s) as [(arts & _ & ->)|(_ & ->)];
      match s with fetch_all ?h ?ts ?s0 =>
        destruct (fetch_all_frame h ts s0) as (_ & Fq & _) end
    end; simpl; by rewrite Fq.
  - unfold resume_fetch in Hstep. repeat case_match; simplify_eq; try done.
    match goal with |- context [settle _ ?fo ?s] =>
      destruct (settle_cases h fo s) as [(arts & _ & ->)|(_ & ->)] end; done.
Qed.

Lemma timer_of_query_init : timer_of_query init.
Proof. intros h tm H. simpl in H. by rewrite lookup_empty in H. Qed.

Lemma timer_of_query_step st e st' :
  at_most_current st → timer_of_query st → step st e = Some st' → timer_of_query st'.
Proof.
  intros Hw Hinv Hstep. destruct (is_submit e) eqn:Hsub.
  - destruct e as [q| | | |]; try done. simpl in Hstep. simplify_eq.
    intros h tm. rewrite effect_timers by done.
    intros Htm. apply lookup_singleton_Some in Htm as [<- <-]. simpl.
    split; [done|]. exists (now st). split; [done|]. by left.
  - pose proof (step_query _ _ _ Hsub Hstep) as Hq.
    destruct (quiet_step _ _ _ Hsub Hstep) as (_ & _ & new & Htr & Hcase).
    intros h tm Htm.
    assert (timers st !! h = Some tm) as Htm0.
    { destruct Hcase as [[Ht _]|(h' & tm' & _ & _ & Ht & _)]; rewrite Ht in Htm.
      - done.
      - by apply lookup_delete_Some in Htm as [_ ?]. }
    destruct (Hinv h tm Htm0) as (Hterms & t0 & Hd & Hin).
    rewrite Hq. split; [done|]. exists t0. split; [done|].
    rewrite Htr. apply elem_of_app. by right.
Qed.

Lemma timer_of_query_run evs : ∀ st st',
  at_most_current st → timer_of_query st → run st evs = Some st' → timer_of_query st'.
Proof.
  induction evs as [|e evs IH]; intros st st' Hw Hinv Hrun; simpl in Hrun.
  - by simplify_eq.
  - destruct (step st e) as [st1|] eqn:Hstep; [|done].
    eapply IH; [| |done].
    + by eapply at_most_current_step.
    + by eapply timer_of_query_step.
Qed.

(** X13: when a timer fires it is the timer of the latest submission, at least
    the quiet interval (250) has passed since that submission, and the
    index is asked for the terms of the query the hook shows at that
    moment. *)
Theorem search_is_for_current_query evs st h st' :
  run init evs = Some st → step st (Fire h) = Some st' →
  searchDebounce st = Some h ∧
  (∃ t0, (t0, Scheduled h) ∈ trace st ∧ t0 + 250 ≤ now st) ∧
  trace st' = (now st, Searched h (tokenize (query st))) :: trace st ∧
  query st' = query st ∧ results st' = results st.
Proof.
  intros Hreach Hstep.
  pose proof (at_most_current_run _ _ _ at_most_current_init Hreach) as Hw.
  pose proof (timer_of_query_run _ _ _ at_most_current_init timer_of_query_init Hreach)
    as Hinv.
  simpl in Hstep. unfold fire in Hstep.
  destruct (timers st !! h) as [tm|] eqn:Htm; [|done].
  destruct (deadline tm <=? now st) eqn:Hd; [|done]. apply N.leb_le in Hd.
  simplify_eq. simpl.
  destruct (Hinv h tm Htm) as (Hterms & t0 & Hdl & Hin).
  split; [apply Hw; by eexists|]. split.
  - exists t0. split; [done|]. unfold QUIET in Hdl. lia.
  - by rewrite Hterms.
Qed.

Lemma search_is_for_current_query_witness :
  ∃ st',
    step due_cat (Fire 2) = Some st' ∧
    trace st' = (350, Searched 2 [str "cat"]) :: trace due_cat.
Proof.
  assert (∃ st', step due_cat (Fire 2) = Some st') as [st' Hstep].
  { vm_compute. by eexists. }
  destruct (search_is_for_current_query (cat_scheduled ++ [Elapse 250]) due_cat 2 st')
    as (_ & _ & Htr & _).
  - vm_compute. reflexivity.
  - exact Hstep.
  - exists st'. split; [exact Hstep|]. rewrite Htr. vm_compute. reflexivity.
Defined.

Lemma commits_by_app h new1 new2 :
  commits_by h (new1 ++ new2) = commits_by h new1 ++ commits_by h new2.
Proof.
  induction new1 as [|[t a] new1 IH]; simpl; [done|].
  destruct a; try done. case_bool_decide; simpl; by rewrite IH.
Qed.

Lemma commits_by_silent h new : silent h new → commits_by h new = [].
Proof.
  induction 1 as [|[t a] new Ha _ IH]; simpl; [done|].
  destruct a; try done. simpl in Ha.
  rewrite bool_decide_eq_false_2; [done|]. congruence.
Qed.

Lemma commits_by_fetches h h' t titles :
  commits_by h (rev (map (λ title, (t, Fetched h' title)) titles)) = [].
Proof.
  induction titles as [|x titles IH]; simpl; [done|].
  by rewrite commits_by_app, IH.
Qed.

(** A step records at most one commit of an attempt, and the attempt is
    finished by it. *)
Lemma step_commits st e st' :
  well_staged st → step st e = Some st' →
  ∃ new, trace st' = new ++ trace st ∧
    ∀ h, commits_by h new = [] ∨ ((∃ r, commits_by h new = [r]) ∧ spent h st').
Proof.
  intros W Hstep.
  destruct e as [q|dt|h0|h0 r|h0 idx o]; simpl in Hstep.
  - simplify_eq. eexists [_; _]. split; [done|]. intros h. by left.
  - simplify_eq. exists []. split; [done|]. intros h. by left.
  - unfold fire in Hstep. repeat case_match; simplify_eq.
    eexists [_]. split; [done|]. intros h. by left.
  - unfold resume_search in Hstep.
    destruct (bool_decide (h0 ∈ awaiting_search st)) eqn:Hin; [|done].
    apply bool_decide_eq_true_1 in Hin.
    destruct (staged_search _ W h0 Hin) as (Hlt & Hth & Hah).
    destruct r as [|titles m].
    { simplify_eq. exists []. split; [done|]. intros h. by left. }
    case_match; simplify_eq.
    { exists []. split; [done|]. intros h. by left. }
    match goal with |- context [settle _ ?fo ?s] =>
      destruct (settle_cases h0 fo s) as [(arts & _ & ->)|(_ & ->)];
      match s with fetch_all ?h ?ts ?s0 =>
        destruct (fetch_all_frame h ts s0) as (Fn & _ & _ & _ & Fh & Ft & Fs & Fa);
        pose proof (fetch_all_trace h ts s0) as Ftr
      end
    end; simpl in *.
    + eexists (_ :: _). rewrite Ftr. split; [done|]. intros h. simpl.
      rewrite commits_by_fetches.
      destruct (decide (h0 = h)) as [Hh|Hh];
        [rewrite !bool_decide_eq_true_2 by done
        |rewrite !bool_decide_eq_false_2 by done; by left].
      subst h0. right. split; [by eexists|].
      unfold spent; simpl. rewrite Fh, Ft, Fs. repeat split; try done.
      * set_solver.
      * by rewrite lookup_delete_eq.
    + eexists. rewrite Ftr. split; [done|]. intros h. left.
      apply commits_by_fetches.
  - unfold resume_fetch in Hstep.
    destruct (awaiting_articles st !! h0) as [fo|] eqn:Hfo.
    2:{ simplify_eq. exists []. split; [done|]. intros h. by left. }
    destruct (staged_in_articles st h0 W (mk_is_Some _ _ Hfo)) as (Hlt & Hth & Hsh).
    repeat case_match; simplify_eq.
    { exists []. split; [done|]. intros h. by left. }
    match goal with |- context [settle _ ?fo ?s] =>
      destruct (settle_cases h0 fo s) as [(arts & _ & ->)|(_ & ->)] end; simpl.
    + eexists [_]. split; [done|]. intros h. simpl.
      destruct (decide (h0 = h)) as [Hh|Hh];
        [rewrite !bool_decide_eq_true_2 by done
        |rewrite !bool_decide_eq_false_2 by done; by left].
      subst h0. right. split; [by eexists|].
      unfold spent; simpl. repeat split; try done. by rewrite lookup_delete_eq.
    + exists []. split; [done|]. intros h. by left.
Qed.

Lemma commits_once_run evs : ∀ st st' h,
  well_staged st →
  (commits_by h (trace st) = [] ∨ ((∃ r, commits_by h (trace st) = [r]) ∧ spent h st)) →
  run st evs = Some st' →
  commits_by h (trace st') = [] ∨ ((∃ r, commits_by h (trace st') = [r]) ∧ spent h st').
Proof.
  induction evs as [|e evs IH]; intros st st' h W Hinv Hrun; simpl in Hrun.
  - by simplify_eq.
  - destruct (step st e) as [st1|] eqn:Hstep; [|done].
    apply (IH st1 st' h); [by eapply well_staged_step| |done].
    destruct Hinv as [Hnone|[[r Hr] Hsp]].
    + destruct (step_commits _ _ _ W Hstep) as (new & Htr & Hnew).
      rewrite Htr, commits_by_app, Hnone, app_nil_r. apply Hnew.
    + destruct (spent_step _ _ _ _ Hsp Hstep) as (Hsp1 & new & Htr & Hsil).
      right. split; [|done]. exists r.
      by rewrite Htr, commits_by_app, (commits_by_silent _ _ Hsil), Hr.
Qed.

(** X14: an attempt calls [setResults] with a result at most once, and is
    finished when it has: it is neither scheduled nor suspended any
    more. *)
Theorem attempt_commits_at_most_once evs st h :
  run init evs = Some st →
  (length (commits_by h (trace st)) ≤ 1)%nat ∧
  (commits_by h (trace st) ≠ [] → spent h st).
Proof.
  intros Hreach.
  destruct (commits_once_run evs init st h well_staged_init (or_introl eq_refl) Hreach)
    as [->|[[r ->] Hsp]]; simpl; split; try done; lia.
Qed.

Lemma attempt_commits_at_most_once_witness :
  ∃ st, run init redirect_search = Some st ∧
    length (commits_by 2 (trace st)) = 1%nat ∧ spent 2 st.
Proof.
  set (st := from_option (λ st, st) init (run init redirect_search)).
  assert (run init redirect_search = Some st) as Hrun by (vm_compute; reflexivity).
  destruct (attempt_commits_at_most_once redirect_search st 2 Hrun) as [_ Hsp].
  exists st. split; [exact Hrun|]. split; [vm_compute; reflexivity|].
  apply Hsp. vm_compute. discriminate.
Defined.

(** X15: from a submission on and until an attempt commits, [results] is
    undefined; and a result that is shown is one that some attempt
    committed. *)
Theorem results_come_from_commits evs st :
  run init evs = Some st →
  (∀ new t tr, trace st = new ++ (t, Cleared) :: tr →
     Forall (λ ta, is_commit ta.2 = false) new → results st = None) ∧
  (∀ r, results st = Some r → ∃ t h, (t, Committed h r) ∈ trace st).
Proof.
  intros Hreach.
  pose proof (shown_run _ _ _ (eq_refl : results init = shown (trace init)) Hreach)
    as Hshown.
  split.
  - intros new t tr Htr Hnew. rewrite Hshown, Htr. by apply shown_cleared.
  - intros r Hr. apply shown_Some. by rewrite <- Hshown.
Qed.

Lemma results_come_from_commits_witness :
  results fetching_cat = None.
Proof.
  apply (proj1 (results_come_from_commits cat_found fetching_cat
                  ltac:(vm_compute; reflexivity))
           [(350, Fetched 2 "Kitten"%string); (350, Fetched 2 "Felidae"%string);
            (350, Fetched 2 "Cat"%string); (350, Searched 2 [str "cat"]);
            (100, Scheduled 2)]
           100 [(0, Scheduled 1); (0, Cleared)]).
  - vm_compute. reflexivity.
  - by repeat constructor.
Defined.

Lemma next_handle_step st e st' :
  step st e = Some st' → next_handle st ≤ next_handle st'.
Proof.
  intros Hstep.
  destruct e as [q|dt|h|h r|h idx o]; simpl in Hstep.
  - simplify_eq. simpl. lia.
  - by simplify_eq.
  - unfold fire in Hstep. repeat case_match; by simplify_eq.
  - unfold resume_search in Hstep. repeat case_match; simplify_eq; try done.
    match goal with |- context [settle _ ?fo ?s] =>
      destruct (settle_cases h fo s) as [(arts & _ & ->)|(_ & ->)];
      match s with fetch_all ?h ?ts ?s0 =>
        destruct (fetch_all_frame h ts s0) as (_ & _ & _ & _ & Fh & _) end
    end; simpl; by rewrite Fh.
  - unfold resume_fetch in Hstep. repeat case_match; simplify_eq; try done.
    match goal with |- context [settle _ ?fo ?s] =>
      destruct (settle_cases h fo s) as [(arts & _ & ->)|(_ & ->)] end; done.
Qed.

Lemma searches_by_app h new1 new2 :
  searches_by h (new1 ++ new2) = searches_by h new1 ++ searches_by h new2.
Proof. unfold searches_by. by rewrite searches_app, List.filter_app. Qed.

(** A step records at most one search of an attempt, the firing of its
    timer, after which the timer is gone for good. *)
Lemma step_searches st e st' h :
  well_staged st → step st e = Some st' →
  ∃ new, trace st' = new ++ trace st ∧
    (fired h st → fired h st' ∧ searches_by h new = []) ∧
    (searches_by h new = [] ∨ ((∃ x, searches_by h new = [x]) ∧ fired h st')).
Proof.
  intros W Hstep. pose proof (next_handle_step _ _ _ Hstep) as Hmono.
  destruct (is_submit e) eqn:Hsub.
  - destruct e as [q| | | |]; try done. simpl in Hstep. simplify_eq.
    eexists [_; _]. split; [done|]. split; [|by left].
    intros [Hlt Ht]. split; [|done]. split; [simpl; lia|]. simpl.
    rewrite lookup_insert_ne by lia. by apply clearTimeout_None.
  - destruct (quiet_step _ _ _ Hsub Hstep) as (_ & _ & new & Htr & Hcase).
    exists new. split; [done|].
    destruct Hcase as [[Ht Hs]|(h' & tm & Hh' & _ & Ht & Hs)];
      unfold searches_by; rewrite Hs; simpl.
    + split; [|by left]. intros [Hlt Hnone]. split; [|done].
      split; [lia|congruence].
    + split.
      * intros [Hlt Hnone]. rewrite bool_decide_eq_false_2 by congruence.
        split; [|done]. split; [lia|]. rewrite Ht, lookup_delete. by case_decide.
      * destruct (decide (h' = h)) as [->|Hne].
        -- rewrite bool_decide_eq_true_2 by done. right. split; [by eexists|].
           destruct (staged_timer _ W h (mk_is_Some _ _ Hh')) as [Hlt _].
           split; [lia|]. by rewrite Ht, lookup_delete_eq.
        -- rewrite bool_decide_eq_false_2 by done. by left.
Qed.

Lemma searches_once_run evs : ∀ st st' h,
  well_staged st →
  (searches_by h (trace st) = [] ∨ ((∃ x, searches_by h (trace st) = [x]) ∧ fired h st)) →
  run st evs = Some st' →
  searches_by h (trace st') = [] ∨ ((∃ x, searches_by h (trace st') = [x]) ∧ fired h st').
Proof.
  induction evs as [|e evs IH]; intros st st' h W Hinv Hrun; simpl in Hrun.
  - by simplify_eq.
  - destruct (step st e) as [st1|] eqn:Hstep; [|done].
    apply (IH st1 st' h); [by eapply well_staged_step| |done].
    destruct (step_searches _ _ _ h W Hstep) as (new & Htr & Hold & Hnew).
    rewrite Htr, searches_by_app.
    destruct Hinv as [Hnone|[[x Hx] Hf]].
    + by rewrite Hnone, app_nil_r.
    + destruct (Hold Hf) as [Hf1 ->]. right. split; [|done]. by exists x.
Qed.

(** X16: an attempt calls the index at most once. *)
Theorem attempt_searches_at_most_once evs st h :
  run init evs = Some st →
  (length (searches_by h (trace st)) ≤ 1)%nat.
Proof.
  intros Hreach.
  destruct (searches_once_run evs init st h well_staged_init (or_introl eq_refl) Hreach)
    as [->|[[x ->] _]]; simpl; lia.
Qed.

Lemma attempt_searches_at_most_once_witness :
  (length (searches_by 2 (trace fetching_cat)) ≤ 1)%nat ∧
  searches_by 2 (trace fetching_cat) = [(350, 2, [str "cat"])].
Proof.
  split.
  - apply (attempt_searches_at_most_once cat_found). vm_compute. reflexivity.
  - vm_compute. reflexivity.
Defined.

End MachineMore.
